(** * Resistive induction equation, DG in space, BDF1/BDF2 in time

    A shallow embedding of [2d/magnetic_induction/resistive_bdf2.py]:
    the weak form [BForm] as pointwise integrands over the reals, the
    time integrator [solve_induction] as a state machine that records
    the calls it makes to the finite-element library, and the
    convergence driver of the [__main__] block.

    Arithmetic is exact (the reals stand for the script's doubles). *)

From Stdlib Require Import Reals Lra Lia ZArith List Bool.
From Stdlib Require PrimFloat FloatOps SpecFloat Uint63.
Import ListNotations.

Open Scope R_scope.

(** ** Pointwise UFL expressions *)

Module UFL.

(** An interior facet has two adjacent cells; a restricted quantity is
    read from one of them.  Cell and exterior-facet integrands have a
    single adjacent cell, indexed by [here]. *)
Inductive side : Type := Plus | Minus.

Definition here : side := Plus.

(** Component index of a 2-d vector: [a[0]], [a[1]]. *)
Inductive idx : Type := I0 | I1.

Record vec : Type := mkvec { c0 : R; c1 : R }.

Definition comp (a : vec) (i : idx) : R :=
  match i with I0 => c0 a | I1 => c1 a end.

(** A scalar, vector or rank-2 expression at one integration point,
    as seen from either side. *)
Definition scalar : Type := side -> R.
Definition vector : Type := side -> vec.
Definition tensor : Type := side -> idx -> idx -> R.

(** A finite-element function (trial, test or coefficient) at one
    integration point: its value and its two partial derivatives. *)
Record field : Type := mkfield {
  val : vector;            (* B          *)
  dxi : idx -> vector      (* B.dx(j)    *)
}.

(** A form at one integration point: the integrands carried by the
    three measures [dx], [dS] and [ds]. *)
Record Form : Type := mkForm {
  cell : R;        (* ... * dx : cells            *)
  ifacet : R;      (* ... * dS : interior facets  *)
  efacet : R       (* ... * ds : exterior facets  *)
}.

(** *** Scalars *)

Definition cst (c : R) : scalar := fun _ => c.
Definition sadd (a b : scalar) : scalar := fun s => a s + b s.
Definition ssub (a b : scalar) : scalar := fun s => a s - b s.
Definition smul (a b : scalar) : scalar := fun s => a s * b s.
Definition sdiv (a b : scalar) : scalar := fun s => a s / b s.
Definition sneg (a : scalar) : scalar := fun s => - a s.
Definition sabs (a : scalar) : scalar := fun s => Rabs (a s).

(** *** Vectors *)

Definition vplus (a b : vec) : vec := mkvec (c0 a + c0 b) (c1 a + c1 b).
Definition vminus (a b : vec) : vec := mkvec (c0 a - c0 b) (c1 a - c1 b).
Definition vmult (k : R) (a : vec) : vec := mkvec (k * c0 a) (k * c1 a).
Definition vdot (a b : vec) : R := c0 a * c0 b + c1 a * c1 b.
Definition vzero : vec := mkvec 0 0.

Definition vadd (a b : vector) : vector := fun s => vplus (a s) (b s).
Definition vsub (a b : vector) : vector := fun s => vminus (a s) (b s).
Definition vscale (k : scalar) (a : vector) : vector :=
  fun s => vmult (k s) (a s).
Definition at_ (a : vector) (i : idx) : scalar := fun s => comp (a s) i.
Definition dot (a b : vector) : scalar := fun s => vdot (a s) (b s).
Definition inner (a b : vector) : scalar := dot a b.

(** *** Rank-2 tensors *)

Definition as_tensor (f : idx -> idx -> scalar) : tensor :=
  fun s i j => f i j s.
Definition tinner (a b : tensor) : scalar :=
  fun s => a s I0 I0 * b s I0 I0 + a s I0 I1 * b s I0 I1
         + a s I1 I0 * b s I1 I0 + a s I1 I1 * b s I1 I1.

(** *** Differential operators on a finite-element function *)

Definition grad (v : field) : tensor := fun s i j => comp (dxi v j s) i.
Definition div (B : field) : scalar :=
  fun s => comp (dxi B I0 s) I0 + comp (dxi B I1 s) I1.

(** *** Restrictions, averages and jumps across an interior facet *)

Definition pos {A : Type} (e : side -> A) : side -> A := fun _ => e Plus.
Definition neg {A : Type} (e : side -> A) : side -> A := fun _ => e Minus.
Definition avg (e : scalar) : scalar := fun _ => 0.5 * (e Plus + e Minus).
Definition vavg (e : vector) : vector :=
  fun _ => vmult 0.5 (vplus (e Plus) (e Minus)).
Definition jump (v : vector) : vector :=
  fun _ => vminus (v Plus) (v Minus).

(** *** Measures and the algebra of forms *)

Definition dx (e : scalar) : Form := mkForm (e here) 0 0.
Definition dS (e : scalar) : Form := mkForm 0 (e here) 0.
Definition ds (e : scalar) : Form := mkForm 0 0 (e here).

Definition fzero : Form := mkForm 0 0 0.
Definition fadd (F G : Form) : Form :=
  mkForm (cell F + cell G) (ifacet F + ifacet G) (efacet F + efacet G).
Definition fsub (F G : Form) : Form :=
  mkForm (cell F - cell G) (ifacet F - ifacet G) (efacet F - efacet G).
Definition fneg (F : Form) : Form :=
  mkForm (- cell F) (- ifacet F) (- efacet F).
Definition fscale (k : R) (F : Form) : Form :=
  mkForm (k * cell F) (k * ifacet F) (k * efacet F).

(** Arithmetic on fields, as far as the script needs it. *)
Definition field_zero : field := mkfield (fun _ => vzero) (fun _ _ => vzero).
Definition field_add (a b : field) : field :=
  mkfield (vadd (val a) (val b)) (fun j => vadd (dxi a j) (dxi b j)).
Definition field_sub (a b : field) : field :=
  mkfield (vsub (val a) (val b)) (fun j => vsub (dxi a j) (dxi b j)).
Definition field_scale (k : R) (a : field) : field :=
  mkfield (vscale (cst k) (val a)) (fun j => vscale (cst k) (dxi a j)).

End UFL.

Import UFL.

Declare Scope sc_scope.
Delimit Scope sc_scope with sc.
Bind Scope sc_scope with scalar.
Notation "a + b" := (sadd a b) : sc_scope.
Notation "a - b" := (ssub a b) : sc_scope.
Notation "a * b" := (smul a b) : sc_scope.
Notation "a / b" := (sdiv a b) : sc_scope.
Notation "- a" := (sneg a) : sc_scope.

Declare Scope vec_scope.
Delimit Scope vec_scope with vec.
Bind Scope vec_scope with vector.
Notation "a + b" := (vadd a b) : vec_scope.
Notation "a - b" := (vsub a b) : vec_scope.
Notation "k * a" := (vscale k%sc a) : vec_scope.

Declare Scope form_scope.
Delimit Scope form_scope with form.
Bind Scope form_scope with Form.
Notation "F + G" := (fadd F G) : form_scope.
Notation "F - G" := (fsub F G) : form_scope.
Notation "- F" := (fneg F) : form_scope.
Notation "k * F" := (fscale k%R F) : form_scope.

Arguments cst c%_R.
Arguments dx e%_sc.
Arguments dS e%_sc.
Arguments ds e%_sc.

(** ** The weak form of the script *)

Module Induction.

(** [C1 = 50.0], the interior-penalty parameter, and [eps = 1.0e-4],
    the resistivity. *)
Definition C1 : R := 50.
Definition eps : R := 1 / 10000.

(** [Curl(B) = B[1].dx(0) - B[0].dx(1)] *)
Definition Curl (B : field) : scalar :=
  (at_ (dxi B I0) I1 - at_ (dxi B I1) I0)%sc.

(** [Cross(a,b) = a[0]*b[1] - a[1]*b[0]] *)
Definition Cross (a b : vector) : scalar :=
  (at_ a I0 * at_ b I1 - at_ a I1 * at_ b I0)%sc.

(** The upwind splitting of the normal velocity, lines 35-38. *)
Definition un_of (u n : vector) : scalar := dot u n.
Definition unp_of (u n : vector) : scalar :=
  (cst 0.5 * (un_of u n + sabs (un_of u n)))%sc.
Definition unm_of (u n : vector) : scalar :=
  (cst 0.5 * (un_of u n - sabs (un_of u n)))%sc.

(** Interior-facet flux [H], line 39, and boundary flux [Hb], line 40.
    The script writes the products of a vector by a scalar with the
    vector first ([u('+')*inner(..)], [B*unp]); the product is the same. *)
Definition H_of (B : field) (u n : vector) : vector :=
  (pos (unp_of u n) * pos (val B) + pos (unm_of u n) * neg (val B)
   - inner (vavg (val B)) (pos n) * pos u)%vec.

Definition Hb_of (B : field) (u g n : vector) : vector :=
  (unp_of u n * val B + unm_of u n * g - dot (val B) n * u)%vec.

(** Advective part [F1], lines 41-43. *)
Definition BForm_F1 (B v : field) (u g n : vector) (h : scalar) : Form :=
  let Fl := as_tensor (fun i j =>
              at_ (val B) i * at_ u j - at_ (val B) j * at_ u i)%sc in
  let H := H_of B u n in
  let Hb := Hb_of B u g n in
  (dx (- tinner Fl (grad v)) + dx (dot u (val v) * div B)
   + dS (inner H (jump (val v)))
   - dS (cst 2 * dot (vavg u) (vavg (val v)) * avg (dot (val B) n))
   + ds (inner Hb (val v)))%form.

(** Resistive part [F2], lines 44-50. *)
Definition BForm_F2 (B v : field) (u g n : vector) (h : scalar) : Form :=
  let Bg := vsub (val B) g in
  (dx (cst eps * Curl B * Curl v)
   - dS (cst 2 * avg (cst eps * Curl B) * avg (Cross n (val v)))
   - dS (cst 2 * avg (cst eps * Curl v) * avg (Cross n (val B)))
   - ds (cst eps * Curl B * Cross n (val v))
   - ds (cst eps * Curl v * Cross n Bg)
   + dS ((cst C1 * cst eps / avg h)
          * avg (Cross n (val B)) * avg (Cross n (val v)))
   + ds ((cst C1 * cst eps / h) * Cross n Bg * Cross n (val v)))%form.

(** [BForm(B,v,u,g,n,h)], line 51. *)
Definition BForm (B v : field) (u g n : vector) (h : scalar) : Form :=
  (BForm_F1 B v u g n h + BForm_F2 B v u g n h)%form.

(** *** The flux as the specification words it

    Written on the raw values at the integration point: [Bp], [Bm] are
    the two traces of [B] on an interior facet, and so on. *)

Definition un_plus (un : R) : R := Rmax un 0.
Definition un_minus (un : R) : R := Rmin un 0.

Definition H_ref (Bp Bm up np : vec) : vec :=
  vminus (vplus (vmult (un_plus (vdot up np)) Bp)
                (vmult (un_minus (vdot up np)) Bm))
         (vmult (vdot (vmult (1 / 2) (vplus Bp Bm)) np) up).

Definition Hb_ref (B u g n : vec) : vec :=
  vminus (vplus (vmult (un_plus (vdot u n)) B)
                (vmult (un_minus (vdot u n)) g))
         (vmult (vdot B n) u).

Definition interior_flux_ref (Bp Bm vp vm up um np nm : vec) : R :=
  vdot (H_ref Bp Bm up np) (vminus vp vm)
  - 2 * vdot (vmult (1 / 2) (vplus up um)) (vmult (1 / 2) (vplus vp vm))
      * ((vdot Bp np + vdot Bm nm) / 2).

Definition boundary_flux_ref (B v u g n : vec) : R :=
  vdot (Hb_ref B u g n) v.

(** Volume term [-(B (x) u - u (x) B) : grad v + (u.v) div B]; [dv j] is
    the derivative of [v] along [x_j], [dB] likewise. *)
Definition volume_ref (B u v : vec) (dB dv : idx -> vec) : R :=
  - (  (comp B I0 * comp u I0 - comp u I0 * comp B I0) * comp (dv I0) I0
     + (comp B I0 * comp u I1 - comp u I0 * comp B I1) * comp (dv I1) I0
     + (comp B I1 * comp u I0 - comp u I1 * comp B I0) * comp (dv I0) I1
     + (comp B I1 * comp u I1 - comp u I1 * comp B I1) * comp (dv I1) I1)
  + vdot u v * (comp (dB I0) I0 + comp (dB I1) I1).

Definition advective_ref (B v : field) (u g n : vector) : Form :=
  mkForm
    (volume_ref (val B here) (u here) (val v here)
                (fun j => dxi B j here) (fun j => dxi v j here))
    (interior_flux_ref (val B Plus) (val B Minus) (val v Plus) (val v Minus)
                       (u Plus) (u Minus) (n Plus) (n Minus))
    (boundary_flux_ref (val B here) (val v here) (u here) (g here) (n here)).

End Induction.

Import Induction.

(** ** The finite-element library, as the script uses it *)

(** What [dolfin] provides.  A discrete function carries its space; an
    integration point [pt] has coordinates, and every discrete function
    has a value and derivatives there, on either side of a facet. *)
Class FEM : Type := {
  Mesh : Type;
  Space : Type;
  Fn : Type;                 (* Function(X): a coefficient vector      *)
  Matrix : Type;
  Vector : Type;
  pt : Type;
  RectangleMesh : Z -> Z -> Mesh;         (* on [p0, p1], np x np      *)
  VectorFunctionSpace : Mesh -> Z -> Space;                (* "DG"     *)
  coords : pt -> vec;                                      (* x[0],x[1] *)
  FacetNormal : Mesh -> pt -> vector;
  CellSize : Mesh -> pt -> scalar;
  local : Fn -> pt -> field;
  zero_function : Space -> Fn;                             (* Function(X) *)
  interpolate : (pt -> vector) -> Space -> Fn;
  assemble_matrix : Space -> (pt -> field -> field -> Form) -> Matrix;
  assemble_vector : Space -> (pt -> field -> Form) -> Vector;
  assemble_scalar : Space -> (pt -> Form) -> R;
  lu : Matrix -> Vector -> Fn;            (* the solution of A x = b   *)
  errornorm : (pt -> vector) -> Fn -> R;                   (* 'l2'     *)
  fn_sub : Fn -> Fn -> Fn                 (* B2.vector() - Bex.vector() *)
}.

(** Exceptions the script can die of, and the loop budget of the model. *)
Inductive exn : Type :=
| ZeroDivisionError
| ValueError            (* math domain error *)
| NameError             (* a name read before it is bound *)
| MeshError             (* a mesh with no cells *)
| NotAReal.             (* a double that is inf or nan *)

Inductive res (A : Type) : Type :=
| Ok (a : A)
| Raise (e : exn)
| OutOfFuel.

Arguments Ok {A} a.
Arguments Raise {A} e.
Arguments OutOfFuel {A}.

Definition bind {A B : Type} (m : res A) (k : A -> res B) : res B :=
  match m with
  | Ok a => k a
  | Raise e => Raise e
  | OutOfFuel => OutOfFuel
  end.

Notation "'do' x <- m ; k" := (bind m (fun x => k))
  (at level 10, x name, m at level 100, k at level 200).

(** Python's [int(x)] on a float: truncation towards zero. *)
Definition py_int (x : R) : Z :=
  if Rle_dec 0 x then Int_part x else (- Int_part (- x))%Z.

(** Rounding to the nearest integer, halves upwards (for the reals the
    script meets, the convention on halves does not matter). *)
Definition round_nearest (x : R) : Z := Int_part (x + 1 / 2).

Module TimeStepping.

Section Integrator.

Context {lib : FEM}.

Definition form2 : Type := pt -> field -> field -> Form.
Definition form1 : Type := pt -> field -> Form.

(** [lhs(F)] keeps the terms that contain the trial function, [rhs(F)]
    is minus the others; for a form affine in the trial function: *)
Definition lhs (F : form2) : form2 :=
  fun x B v => fsub (F x B v) (F x field_zero v).
Definition rhs (F : form2) : form1 :=
  fun x v => fneg (F x field_zero v).

(** What the run does to the outside world, in order. *)
Inductive file : Type := sol_pvd | Berr_pvd.

Inductive event : Type :=
| EvWrite (f : file) (B : Fn)              (* f << B                       *)
| EvVariationalSolve (a : form2) (L : form1)
                                           (* solve(a == L, B): one-off    *)
| EvAssembleMatrix (a : form2)             (* assemble(a, tensor=A)        *)
| EvAssembleVector (L : form1)             (* assemble(L)                  *)
| EvAssembleScalar                         (* assemble(Bd)                 *)
| EvLUSolver (A : Matrix)                  (* LUSolver(A)                  *)
| EvFactorize (A : Matrix)                 (* LU factors of A computed     *)
| EvSubstitute (A : Matrix) (b : Vector)   (* solve with the kept factors  *)
| EvPrint (it : Z) (dt t : R).

(** [LUSolver]: the factors are computed by the first [solve]; with
    [reuse_factorization] set they are kept for the later ones. *)
Record lusolver : Type := mkLU {
  lu_matrix : Matrix;
  reuse_factorization : bool;
  factorized : bool
}.

Definition LUSolver (A : Matrix) : lusolver := mkLU A false false.

Definition set_reuse_factorization (s : lusolver) (b : bool) : lusolver :=
  mkLU (lu_matrix s) b (factorized s).

Definition lu_solve (s : lusolver) (b : Vector)
  : lusolver * Fn * list event :=
  let A := lu_matrix s in
  if reuse_factorization s && factorized s
  then (s, lu A b, [EvSubstitute A b])
  else (mkLU A (reuse_factorization s) true, lu A b,
        [EvFactorize A; EvSubstitute A b]).

(** Velocity field, line 63, and exact solution [ge], lines 65-66. *)
Definition u (x : pt) : vector :=
  fun _ => mkvec (- c1 (coords x)) (c0 (coords x)).

Definition ge (t : R) (x : pt) : vector :=
  let x0 := c0 (coords x) in
  let x1 := c1 (coords x) in
  let e := exp (- 20 * (x0 * x0 + x1 * x1
                        - (x0 * cos t + x1 * sin t) + 0.25)) in
  fun _ => mkvec (4.0 * (- x1 + 0.5 * sin t) * e)
                 (4.0 * (x0 - 0.5 * cos t) * e).

(** The variables of [solve_induction] that change while it runs. *)
Record state : Type := mkState {
  B0 : Fn;
  B1 : Fn;
  B2 : Fn;
  g_t : R;                (* g.t *)
  it : Z;
  t : R;
  solver : option lusolver;
  out : list event
}.

Definition emit (es : list event) (st : state) : state :=
  mkState (B0 st) (B1 st) (B2 st) (g_t st) (it st) (t st) (solver st)
          (out st ++ es).

(** Time accounting, lines 77-81. *)
Definition T : R := 0.5 * PI.
Definition h_of (np : Z) : R := 2.0 / IZR np.
Definition dt_guess (np : Z) : R := 0.5 * h_of np.
Definition N_of (np : Z) : Z := py_int (T / dt_guess np).
Definition dt_of (np : Z) : R := T / IZR (N_of np).

Section Run.

Variables (mesh : Mesh) (X : Space) (dt : R).

Let n := FacetNormal mesh.
Let h := CellSize mesh.

(** Line 89: [F1 = inner(B-B0,v)*dx + dt*BForm(B,v,u,g,n,h)], read with
    the current [B0] and [g.t]. *)
Definition F_bdf1 (b0 : Fn) (gt : R) : form2 :=
  fun x B v =>
    (dx (inner (val B - val (local b0 x)) (val v))
     + dt * BForm B v (u x) (ge gt x) (n x) (h x))%form.

(** Lines 96-97:
    [F = inner(B-(4/3)*B1+(1/3)*B0,v)*dx + (2/3)*dt*BForm(B,v,u,g,n,h)]. *)
Definition F_bdf2 (b0 b1 : Fn) (gt : R) : form2 :=
  fun x B v =>
    (dx (inner (val B - cst (4.0 / 3.0) * val (local b1 x)
                + cst (1.0 / 3.0) * val (local b0 x)) (val v))
     + (2.0 / 3.0 * dt) * BForm B v (u x) (ge gt x) (n x) (h x))%form.

(** Lines 69-75 and 85: initial condition, first snapshot. *)
Definition init : state :=
  let b0 := interpolate (ge 0.0) X in
  mkState b0 (zero_function X) b0 0.0 0 0.0 None [EvWrite sol_pvd b0].

(** Lines 87-93: the first step, BDF1. *)
Definition bootstrap (st : state) : state :=
  let gt := dt in
  let a1 := lhs (F_bdf1 (B0 st) gt) in
  let L1 := rhs (F_bdf1 (B0 st) gt) in
  let b1 := lu (assemble_matrix X a1) (assemble_vector X L1) in
  mkState (B0 st) b1 (B2 st) gt (it st + 1) (t st + dt) (solver st)
          (out st ++ [EvVariationalSolve a1 L1]).

(** Lines 99-103: the BDF2 matrix and its solver. *)
Definition a_bdf2 (st : state) : form2 :=
  lhs (F_bdf2 (B0 st) (B1 st) (g_t st)).
Definition L_bdf2 (st : state) : form1 :=
  rhs (F_bdf2 (B0 st) (B1 st) (g_t st)).

Definition setup_bdf2 (st : state) : state :=
  let a := a_bdf2 st in
  let A := assemble_matrix X a in
  let s := set_reuse_factorization (LUSolver A) true in
  mkState (B0 st) (B1 st) (B2 st) (g_t st) (it st) (t st) (Some s)
          (out st ++ [EvAssembleMatrix a; EvLUSolver A]).

(** Lines 106-114: one pass through the body of the [while] loop.  [L]
    holds references to [B0], [B1] and [g]: [assemble(L)] reads them as
    they are when it is called. *)
Definition steady_step (itsave : Z) (st : state) : res state :=
  match solver st with
  | None => Raise NameError
  | Some s =>
    let gt := t st + dt in
    let L := rhs (F_bdf2 (B0 st) (B1 st) gt) in
    let b := assemble_vector X L in
    let '(s', b2, evs) := lu_solve s b in
    let b0' := B1 st in
    let b1' := b2 in
    let it' := (it st + 1)%Z in
    let t' := t st + dt in
    let out' := out st ++ [EvAssembleVector L] ++ evs ++ [EvPrint it' dt t'] in
    if (itsave =? 0)%Z then Raise ZeroDivisionError
    else if (it' mod itsave =? 0)%Z
    then Ok (mkState b0' b1' b2 gt it' t' (Some s')
               (out' ++ [EvWrite sol_pvd b2]))
    else Ok (mkState b0' b1' b2 gt it' t' (Some s') out')
  end.

(** Line 105: [while t < T], the comparison taken over the reals; the
    comparison of the doubles is [steady_loop_on] with [double_clock]. *)
Fixpoint steady_loop (fuel : nat) (itsave : Z) (st : state) : res state :=
  if Rlt_dec (t st) T then
    match fuel with
    | O => OutOfFuel
    | S fuel' =>
      do st' <- steady_step itsave st;
      steady_loop fuel' itsave st'
    end
  else Ok st.

(** Lines 116-126: the error norms and the error file. *)
Definition finish (st : state) : R * R * state :=
  let Be := ge (t st) in
  let err_l2 := errornorm Be (B2 st) in
  let Bd : pt -> Form :=
    fun x => dx (div (local (B2 st) x) * div (local (B2 st) x)) in
  let div_l2 := sqrt (assemble_scalar X Bd) in
  let Bex := interpolate Be X in
  let Berr := fn_sub (B2 st) Bex in
  (div_l2, err_l2, emit [EvAssembleScalar; EvWrite Berr_pvd Berr] st).

End Run.

(** [solve_induction(degree, np, itsave)]: the pair it returns and the
    state it ends in. *)
Definition solve_induction (fuel : nat) (degree np itsave : Z)
  : res (R * R * state) :=
  if (np <=? 0)%Z then Raise MeshError
  else
    let mesh := RectangleMesh np np in
    let X := VectorFunctionSpace mesh degree in
    let st0 := init X in
    let N := N_of np in
    if (N =? 0)%Z then Raise ZeroDivisionError
    else
      let dt := dt_of np in
      let st1 := bootstrap mesh X dt st0 in
      let st2 := setup_bdf2 mesh X dt st1 in
      do st3 <- steady_loop mesh X dt fuel itsave st2;
      Ok (finish X st3).

(** The mesh and the space of a run, and its initial field [B0]. *)
Definition mesh_of (np : Z) : Mesh := RectangleMesh np np.
Definition space_of (degree np : Z) : Space :=
  VectorFunctionSpace (mesh_of np) degree.
Definition initial_field (degree np : Z) : Fn :=
  interpolate (ge 0.0) (space_of degree np).

(** The state after the first step, the state the loop starts from, and
    the state after [k] passes through its body. *)
Definition after_bootstrap (degree np : Z) : state :=
  bootstrap (mesh_of np) (space_of degree np) (dt_of np)
            (init (space_of degree np)).

Definition steady_start (degree np : Z) : state :=
  setup_bdf2 (mesh_of np) (space_of degree np) (dt_of np)
             (after_bootstrap degree np).

Fixpoint steady_iter (mesh : Mesh) (X : Space) (dt : R)
    (k : nat) (itsave : Z) (st : state) : res state :=
  match k with
  | O => Ok st
  | S k' =>
    do st' <- steady_iter mesh X dt k' itsave st;
    steady_step mesh X dt itsave st'
  end.

Definition steady_after (degree np itsave : Z) (k : nat) : res state :=
  steady_iter (mesh_of np) (space_of degree np) (dt_of np) k itsave
              (steady_start degree np).

(** *** Reading a trace *)

Definition is_matrix_assembly (e : event) : bool :=
  match e with EvAssembleMatrix _ => true | _ => false end.
Definition is_vector_assembly (e : event) : bool :=
  match e with EvAssembleVector _ => true | _ => false end.
Definition is_factorization (e : event) : bool :=
  match e with EvFactorize _ => true | _ => false end.
Definition is_substitution (e : event) : bool :=
  match e with EvSubstitute _ _ => true | _ => false end.
Definition is_solver_creation (e : event) : bool :=
  match e with EvLUSolver _ => true | _ => false end.
Definition is_variational_solve (e : event) : bool :=
  match e with EvVariationalSolve _ _ => true | _ => false end.

Definition count (p : event -> bool) (l : list event) : nat :=
  length (filter p l).

(** The fields written to [sol.pvd], in order. *)
Fixpoint snapshots (l : list event) : list Fn :=
  match l with
  | [] => []
  | EvWrite sol_pvd B :: l' => B :: snapshots l'
  | _ :: l' => snapshots l'
  end.

(** *** The loop, pass by pass *)

(** What holds of the state after [k] passes through the loop body; [A]
    is the matrix given to [LUSolver]. *)
Definition steady_inv (dt : R) (A : Matrix) (k : nat) (st : state) : Prop :=
  it st = (1 + Z.of_nat k)%Z
  /\ t st = IZR (it st) * dt
  /\ exists s, solver st = Some s
       /\ lu_matrix s = A
       /\ reuse_factorization s = true
       /\ factorized s = negb (Nat.eqb k 0).

(** The events of one pass. *)
Definition pass_events (X : Space) (dt : R) (itsave : Z) (A : Matrix)
    (first : bool) (L : form1) (b2 : Fn) (it' : Z) (t' : R) : list event :=
  [EvAssembleVector L]
  ++ (if first then [EvFactorize A] else [])
  ++ [EvSubstitute A (assemble_vector X L); EvPrint it' dt t']
  ++ (if (it' mod itsave =? 0)%Z then [EvWrite sol_pvd b2] else []).

(** [saves itsave k]: how many of the steps [2 .. k+1] are saved. *)
Definition saves (itsave : Z) (k : nat) : nat :=
  length (filter (fun j => ((1 + Z.of_nat j) mod itsave =? 0)%Z) (seq 1 k)).

(** The matrix of the run: [A], line 101. *)
Definition system_form (degree np : Z) : form2 :=
  a_bdf2 (mesh_of np) (dt_of np) (after_bootstrap degree np).

Definition system_matrix (degree np : Z) : Matrix :=
  assemble_matrix (space_of degree np) (system_form degree np).

(** The right-hand side a pass assembles from the state it starts in. *)
Definition pass_rhs (degree np : Z) (st : state) : form1 :=
  rhs (F_bdf2 (mesh_of np) (dt_of np) (B0 st) (B1 st) (t st + dt_of np)).

(** The number of passes through the loop in a run of [N] steps. *)
Definition steady_steps (np : Z) : nat := (Z.to_nat (N_of np) - 1)%nat.

(** *** The forms as the specification words them *)

(** Implicit Euler, [(B - B0)/dt + BForm(B, .) = 0], tested with [v]. *)
Definition euler_residual (mesh : Mesh) (dt : R) (b0 : Fn) (gt : R)
  : form2 :=
  fun x B v =>
    let F := BForm B v (u x) (ge gt x)
                   (FacetNormal mesh x) (CellSize mesh x) in
    mkForm (vdot (vmult (/ dt) (vminus (val B here) (val (local b0 x) here)))
                 (val v here) + cell F)
           (ifacet F) (efacet F).

(** BDF2, [inner(B - 4/3 B1 + 1/3 B0, v) + (2/3) dt BForm(B,v,u,g,n,h)]. *)
Definition bdf2_residual (mesh : Mesh) (dt : R) (b0 b1 : Fn) (gt : R)
  : form2 :=
  fun x B v =>
    let F := BForm B v (u x) (ge gt x)
                   (FacetNormal mesh x) (CellSize mesh x) in
    mkForm (vdot (vplus (vminus (val B here)
                                (vmult (4 / 3) (val (local b1 x) here)))
                        (vmult (1 / 3) (val (local b0 x) here)))
                 (val v here)
            + 2 / 3 * dt * cell F)
           (2 / 3 * dt * ifacet F) (2 / 3 * dt * efacet F).

End Integrator.

End TimeStepping.

Import TimeStepping.

(** ** The convergence driver *)

Module Driver.

Section Main.

Context {lib : FEM}.

(** The parsed command line: [-deg], [-N], [-s]. *)
Record args : Type := mkArgs {
  deg : Z;
  N : list Z;
  s : option Z
}.

(** [default=1000000] of the [-s] option, line 132. *)
Definition save_interval (a : args) : Z :=
  match s a with
  | Some i => i
  | None => 1000000%Z
  end.

Fixpoint mapM {A B : Type} (f : A -> res B) (l : list A) : res (list B) :=
  match l with
  | [] => Ok []
  | a :: l' => do b <- f a; do bs <- mapM f l'; Ok (b :: bs)
  end.

(** A quotient of two doubles that the reals can hold, and [math.log]. *)
Definition np_div (a b : R) : res R :=
  if Req_dec_T b 0 then Raise NotAReal else Ok (a / b).

Definition math_log (x : R) : res R :=
  if Rlt_dec 0 x then Ok (ln x) else Raise ValueError.

(** Lines 146-149, for one [m]. *)
Definition rate_pair (err_l2 div_l2 : list R) (m : nat) : res (R * R) :=
  do rt <- np_div (nth m err_l2 0) (nth (m + 1) err_l2 0);
  do lrt <- math_log rt;
  do l2 <- math_log 2;
  let p := lrt / l2 in
  do rt' <- np_div (nth m div_l2 0) (nth (m + 1) div_l2 0);
  do lrt' <- math_log rt';
  do l2' <- math_log 2;
  let q := lrt' / l2' in
  Ok (p, q).

(** What [__main__] leaves behind: the final state of every run, the
    two error arrays, and the printed rate pairs. *)
Record report : Type := mkReport {
  runs : list state;
  div_l2 : list R;
  err_l2 : list R;
  rate_table : list (R * R)
}.

Definition main (fuel : nat) (a : args) : res report :=
  do rs <- mapM (fun np => solve_induction fuel (deg a) np (save_interval a))
                (N a);
  let dv := map (fun r => fst (fst r)) rs in
  let er := map (fun r => snd (fst r)) rs in
  do rates <- mapM (rate_pair er dv) (seq 0 (length (N a) - 1));
  Ok (mkReport (map snd rs) dv er rates).

End Main.

End Driver.

Import Driver.

(** A one-point instance of the library, to run the model on. *)
Definition toy_fem : FEM := {|
  Mesh := unit;
  Space := unit;
  Fn := R;
  Matrix := unit;
  Vector := R;
  pt := unit;
  RectangleMesh := fun _ _ => tt;
  VectorFunctionSpace := fun _ _ => tt;
  coords := fun _ => mkvec 0 0;
  FacetNormal := fun _ _ _ => mkvec 1 0;
  CellSize := fun _ _ _ => 1;
  local := fun b _ => mkfield (fun _ => mkvec b b) (fun _ _ => vzero);
  zero_function := fun _ => 0;
  interpolate := fun f _ => c0 (f tt here);
  assemble_matrix := fun _ _ => tt;
  assemble_vector := fun _ L => cell (L tt (mkfield (fun _ => mkvec 1 0)
                                                   (fun _ _ => vzero)));
  assemble_scalar := fun _ _ => 1;
  lu := fun _ b => b;
  errornorm := fun _ _ => 1;
  fn_sub := Rminus
|}.

(** [log2 x], the way the rates are specified. *)
Definition log2 (x : R) : R := ln x / ln 2.

(** ** Notions used to read the weak form and the exact solution *)

(** The flux of the induction equation through a facet of normal [n]:
    [(u.n) B - (B.n) u]. *)
Definition physical_flux (B u n : vec) : vec :=
  vminus (vmult (vdot u n) B) (vmult (vdot B n) u).

(** The boundary data of the docstring, [g = 0]. *)
Definition no_data : vector := fun _ => vzero.

(** The two expressions of [ge], lines 65-66, on the coordinates of a
    point. *)
Definition ge_xy (t : R) (p : vec) : vec :=
  let x0 := c0 p in
  let x1 := c1 p in
  let e := exp (- 20 * (x0 * x0 + x1 * x1
                        - (x0 * cos t + x1 * sin t) + 0.25)) in
  mkvec (4.0 * (- x1 + 0.5 * sin t) * e) (4.0 * (x0 - 0.5 * cos t) * e).

(** The velocity ["-x[1]", "x[0]"], line 63, on coordinates. *)
Definition u_xy (p : vec) : vec := mkvec (- c1 p) (c0 p).

(** The rotation of angle [t] about the origin. *)
Definition rot (t : R) (p : vec) : vec :=
  mkvec (cos t * c0 p - sin t * c1 p) (sin t * c0 p + cos t * c1 p).

(** ** The Lagrange-multiplier demo: its index bookkeeping

    [2d/laplace_lagrange_multiplier/demo.py] restricts a boundary mass
    matrix and two vectors to the boundary degrees of freedom [binds],
    solves there, and writes the solutions back into full vectors.
    Vectors are lists of reals, matrices lists of rows; an index outside
    its vector raises, which is [None] here. *)

Module Demo.

(** [l[binds]]: the entries of [l] at the indices [binds], in order. *)
Fixpoint select {A : Type} (l : list A) (binds : list nat)
  : option (list A) :=
  match binds with
  | [] => Some []
  | i :: bs =>
    match nth_error l i, select l bs with
    | Some a, Some r => Some (a :: r)
    | _, _ => None
    end
  end.

(** [v[i] = a] *)
Fixpoint set_at (v : list R) (i : nat) (a : R) : option (list R) :=
  match v, i with
  | [], _ => None
  | _ :: v', O => Some (a :: v')
  | b :: v', S i' =>
    match set_at v' i' a with
    | Some w => Some (b :: w)
    | None => None
    end
  end.

(** [v[binds] = x], one value for each index. *)
Fixpoint scatter (v : list R) (binds : list nat) (x : list R)
  : option (list R) :=
  match binds, x with
  | [], [] => Some v
  | i :: bs, a :: xs =>
    match set_at v i a with
    | Some v' => scatter v' bs xs
    | None => None
    end
  | _, _ => None
  end.

(** [v.zero()] *)
Definition zero (v : list R) : list R := map (fun _ => 0) v.

(** [M[binds,:]], [M[:,binds]] and line 43, [M[binds,:][:,binds]]. *)
Definition rows (M : list (list R)) (binds : list nat)
  : option (list (list R)) := select M binds.

Fixpoint cols (M : list (list R)) (binds : list nat)
  : option (list (list R)) :=
  match M with
  | [] => Some []
  | row :: M' =>
    match select row binds, cols M' binds with
    | Some r, Some R' => Some (r :: R')
    | _, _ => None
    end
  end.

Definition restrict (M : list (list R)) (binds : list nat)
  : option (list (list R)) :=
  match rows M binds with
  | Some M1 => cols M1 binds
  | None => None
  end.

(** The entry [M[i,j]]. *)
Definition entry (M : list (list R)) (i j : nat) : option R :=
  match nth_error M i with
  | Some row => nth_error row j
  | None => None
  end.

Section Script.

(** [x, info = cg(M, rhs)]: the vector the solver returns. *)
Variable cg : list (list R) -> list R -> list R.

(** Lines 42-48: the boundary values, from the full boundary mass
    matrix [M], the full load [b] and the vector [ubc] to fill. *)
Definition project_bc (M : list (list R)) (b ubc : list R)
    (binds : list nat) : option (list R) :=
  match restrict M binds, select b binds with
  | Some Mr, Some rhs => scatter (zero ubc) binds (cg Mr rhs)
  | _, _ => None
  end.

(** Lines 59-64: the boundary stress, from the restricted matrix [Mr] of
    line 43, the full residual [b = assemble(a-L)] and the vector
    [stress] to fill. *)
Definition boundary_stress (Mr : list (list R)) (b stress : list R)
    (binds : list nat) : option (list R) :=
  match select b binds with
  | Some bb => scatter (zero stress) binds (cg Mr bb)
  | None => None
  end.

End Script.

End Demo.

(** ** The clock of the loop, in doubles

    The script holds [t], [dt] and [T] in binary64 and tests [t < T] on
    them, line 105; [t] is the sum accumulated by [t += dt], lines 93
    and 111, and rounding can leave it just under [T] after [N] steps.
    [steady_loop] compares the exact values.  In [steady_loop_on] the
    answer of the comparison is a parameter [lt] of the run, so that a
    fact proved for every [lt] holds of the script whatever its doubles
    answer; [exact_clock] gives [steady_loop] back, and [double_clock]
    computes the answer the way the script does. *)

Section AnyClock.

Context {lib : FEM}.

Fixpoint steady_loop_on (lt : state -> bool) (mesh : Mesh) (X : Space)
    (dt : R) (fuel : nat) (itsave : Z) (st : state) : res state :=
  if lt st then
    match fuel with
    | O => OutOfFuel
    | S fuel' =>
      do st' <- steady_step mesh X dt itsave st;
      steady_loop_on lt mesh X dt fuel' itsave st'
    end
  else Ok st.

Definition solve_induction_on (lt : state -> bool) (fuel : nat)
    (degree np itsave : Z) : res (R * R * state) :=
  if (np <=? 0)%Z then Raise MeshError
  else
    let mesh := RectangleMesh np np in
    let X := VectorFunctionSpace mesh degree in
    let st0 := init X in
    let N := N_of np in
    if (N =? 0)%Z then Raise ZeroDivisionError
    else
      let dt := dt_of np in
      let st1 := bootstrap mesh X dt st0 in
      let st2 := setup_bdf2 mesh X dt st1 in
      do st3 <- steady_loop_on lt mesh X dt fuel itsave st2;
      Ok (finish X st3).

Definition exact_clock (st : state) : bool :=
  if Rlt_dec (t st) T then true else false.

End AnyClock.

(** Lines 77-81, 85, 93 and 111 in binary64.  [pi_d] is the double
    [math.pi]; [py_int_d] is [int] on a finite double, truncation
    toward zero; [t_after dt k] is [t] after [k] additions [t += dt]
    from [0.0]. *)
Module DoubleClock.

Import PrimFloat.

Definition of_int (z : Z) : float := of_uint63 (Uint63.of_Z z).

Definition py_int_d (x : float) : option Z :=
  match FloatOps.Prim2SF x with
  | SpecFloat.S754_zero _ => Some 0%Z
  | SpecFloat.S754_finite sg m e =>
    let v := if (0 <=? e)%Z then (Z.pos m * 2 ^ e)%Z
             else (Z.pos m / 2 ^ (- e))%Z in
    Some (if sg then (- v)%Z else v)
  | _ => None
  end.

Definition pi_d : float := 0x1.921fb54442d18p+1%float.
Definition T_d : float := (0.5 * pi_d)%float.
Definition h_d (np : Z) : float := (2.0 / of_int np)%float.
Definition dt_guess_d (np : Z) : float := (0.5 * h_d np)%float.
Definition N_d (np : Z) : option Z := py_int_d (T_d / dt_guess_d np)%float.
Definition dt_d (np : Z) : option float :=
  match N_d np with
  | Some N => if (N =? 0)%Z then None else Some (T_d / of_int N)%float
  | None => None
  end.

Fixpoint t_after (dt : float) (k : nat) : float :=
  match k with
  | O => 0.0%float
  | S k' => (t_after dt k' + dt)%float
  end.

(** [t < T] when the step counter is [it]: [t] and [it] advance
    together, lines 93 and 111. *)
Definition guard (np it : Z) : bool :=
  match dt_d np with
  | Some dt => ltb (t_after dt (Z.to_nat it)) T_d
  | None => false
  end.

End DoubleClock.

Definition double_clock {lib : FEM} (np : Z) (st : state) : bool :=
  DoubleClock.guard np (it st).

(** The loop ends within the budget: at the start of some pass, the
    [k]-th, the comparison answers no. *)
Definition clock_stops {lib : FEM} (lt : state -> bool)
    (degree np itsave : Z) (fuel : nat) : Prop :=
  exists k sk,
    (k <= fuel)%nat
    /\ steady_after degree np itsave k = Ok sk
    /\ lt sk = false.

(** ** The weak form: the advective flux *)

Section Flux.

Lemma half_sum_abs (x : R) : 0.5 * (x + Rabs x) = Rmax x 0.
Proof.
  unfold Rabs, Rmax.
  destruct (Rcase_abs x), (Rle_dec x 0); lra.
Qed.

Lemma half_diff_abs (x : R) : 0.5 * (x - Rabs x) = Rmin x 0.
Proof.
  unfold Rabs, Rmin.
  destruct (Rcase_abs x), (Rle_dec x 0); lra.
Qed.

Lemma unp_is_max (u n : vector) (s : side) :
  unp_of u n s = un_plus (vdot (u s) (n s)).
Proof. apply half_sum_abs. Qed.

Lemma unm_is_min (u n : vector) (s : side) :
  unm_of u n s = un_minus (vdot (u s) (n s)).
Proof. apply half_diff_abs. Qed.

(** C1: the advective part [F1] of [BForm] is the reference expression:
    the upwind interior flux [H] against [jump(v)], the correction
    [-2 (avg u . avg v) avg(B.n)], and the boundary flux [Hb] against [v],
    with [un+ = max(un,0)] and [un- = min(un,0)]; [BForm] is [F1] plus
    the resistive part [F2]. *)
Theorem BForm_advective_part (B v : field) (u g n : vector) (h : scalar) :
  BForm_F1 B v u g n h = advective_ref B v u g n
  /\ BForm B v u g n h
     = fadd (advective_ref B v u g n) (BForm_F2 B v u g n h).
Proof.
  assert (E : BForm_F1 B v u g n h = advective_ref B v u g n).
  { unfold BForm_F1, advective_ref, H_of, Hb_of, fadd, fsub, dx, dS, ds.
    cbn [cell ifacet efacet].
    unfold interior_flux_ref, boundary_flux_ref, volume_ref, H_ref, Hb_ref.
    unfold inner, dot, vadd, vsub, vscale, pos, neg, vavg, avg, jump, smul,
      sneg, cst, tinner, as_tensor, grad, div, at_, ssub, here.
    rewrite !unp_is_max, !unm_is_min.
    generalize (un_plus (vdot (u Plus) (n Plus))),
               (un_minus (vdot (u Plus) (n Plus))).
    intros p m.
    destruct (val B Plus) as [bp0 bp1], (val B Minus) as [bm0 bm1],
             (val v Plus) as [vp0 vp1], (val v Minus) as [vm0 vm1],
             (u Plus) as [up0 up1], (u Minus) as [um0 um1],
             (n Plus) as [np0 np1], (n Minus) as [nm0 nm1],
             (g Plus) as [g0 g1].
    unfold vdot, vminus, vplus, vmult, comp; cbn [c0 c1].
    replace 0.5 with (1 / 2) by lra.
    f_equal; field. }
  split; [exact E|].
  unfold BForm. now rewrite E.
Qed.

End Flux.

(** ** Forms: what is solved, and what the matrix depends on *)

Ltac unfold_ufl :=
  unfold field_zero, field_add, field_sub, field_scale in *;
  unfold BForm, BForm_F1, BForm_F2, H_of, Hb_of, unp_of, unm_of, un_of,
    Curl, Cross, fadd, fsub, fneg, fscale, fzero, dx, dS, ds in *;
  cbn [cell ifacet efacet val dxi] in *;
  unfold inner, dot, vadd, vsub, vscale, pos, neg, vavg, avg, jump, smul,
    sdiv, sadd, sabs, sneg, ssub, cst, tinner, as_tensor, grad, div, at_,
    here, vzero in *;
  unfold vdot, vminus, vplus, vmult, comp in *;
  cbn [cell ifacet efacet val dxi c0 c1] in *.

Lemma Form_eq (F G : Form) :
  cell F = cell G -> ifacet F = ifacet G -> efacet F = efacet G -> F = G.
Proof. destruct F, G; cbn; intros; subst; reflexivity. Qed.

Section Forms.

Context {lib : FEM}.

(** The system [a == L] with [a = lhs(F)], [L = rhs(F)] is [F = 0]. *)
Lemma lhs_rhs_residual (F : form2) (x : pt) (B v : field) :
  lhs F x B v = rhs F x v <-> F x B v = fzero.
Proof.
  unfold lhs, rhs, fsub, fneg, fzero.
  destruct (F x B v) as [a b c], (F x field_zero v) as [a0 b0 c0].
  cbn [cell ifacet efacet]. split; intros E; inversion E; f_equal; lra.
Qed.

(** The part of [BForm] that contains the trial function does not see
    the boundary data, and is linear in the trial function. *)
Lemma BForm_trial_part_indep (B v : field) (u g g' n : vector) (h : scalar) :
  fsub (BForm B v u g n h) (BForm field_zero v u g n h)
  = fsub (BForm B v u g' n h) (BForm field_zero v u g' n h).
Proof. unfold_ufl. f_equal; unfold Rdiv; ring. Qed.

Lemma BForm_trial_part_additive (B B' v : field) (u g n : vector)
    (h : scalar) :
  fsub (BForm (field_add B B') v u g n h) (BForm field_zero v u g n h)
  = fadd (fsub (BForm B v u g n h) (BForm field_zero v u g n h))
         (fsub (BForm B' v u g n h) (BForm field_zero v u g n h)).
Proof. unfold_ufl. f_equal; unfold Rdiv; ring. Qed.

Lemma BForm_trial_part_homogeneous (k : R) (B v : field) (u g n : vector)
    (h : scalar) :
  fsub (BForm (field_scale k B) v u g n h) (BForm field_zero v u g n h)
  = fscale k (fsub (BForm B v u g n h) (BForm field_zero v u g n h)).
Proof. unfold_ufl. f_equal; unfold Rdiv; ring. Qed.

Variables (mesh : Mesh) (X : Space) (dt : R).

(** The bilinear form of BDF2 is the same whatever the history and the
    time of the boundary data: it can be assembled once. *)
Lemma lhs_bdf2_invariant (b0 b1 b0' b1' : Fn) (gt gt' : R)
    (x : pt) (B v : field) :
  lhs (F_bdf2 mesh dt b0 b1 gt) x B v
  = lhs (F_bdf2 mesh dt b0' b1' gt') x B v.
Proof.
  unfold lhs, F_bdf2.
  pose proof (BForm_trial_part_indep B v (u x) (ge gt x) (ge gt' x)
                (FacetNormal mesh x) (CellSize mesh x)) as E.
  apply (f_equal cell) in E as Ec.
  apply (f_equal ifacet) in E as Ei.
  apply (f_equal efacet) in E as Ee.
  revert Ec Ei Ee.
  generalize (BForm B v (u x) (ge gt x) (FacetNormal mesh x) (CellSize mesh x)),
    (BForm B v (u x) (ge gt' x) (FacetNormal mesh x) (CellSize mesh x)),
    (BForm field_zero v (u x) (ge gt x) (FacetNormal mesh x) (CellSize mesh x)),
    (BForm field_zero v (u x) (ge gt' x) (FacetNormal mesh x)
       (CellSize mesh x)).
  intros F1 F2 F3 F4. unfold_ufl. intros Ec Ei Ee.
  apply Form_eq; cbn [cell ifacet efacet]; nra.
Qed.

Lemma lhs_bdf2_additive (b0 b1 : Fn) (gt : R) (x : pt) (B B' v : field) :
  lhs (F_bdf2 mesh dt b0 b1 gt) x (field_add B B') v
  = fadd (lhs (F_bdf2 mesh dt b0 b1 gt) x B v)
         (lhs (F_bdf2 mesh dt b0 b1 gt) x B' v).
Proof.
  unfold lhs, F_bdf2.
  pose proof (BForm_trial_part_additive B B' v (u x) (ge gt x)
                (FacetNormal mesh x) (CellSize mesh x)) as E.
  apply (f_equal cell) in E as Ec.
  apply (f_equal ifacet) in E as Ei.
  apply (f_equal efacet) in E as Ee.
  revert Ec Ei Ee.
  generalize (BForm B v (u x) (ge gt x) (FacetNormal mesh x) (CellSize mesh x)),
    (BForm B' v (u x) (ge gt x) (FacetNormal mesh x) (CellSize mesh x)),
    (BForm (field_add B B') v (u x) (ge gt x) (FacetNormal mesh x)
       (CellSize mesh x)),
    (BForm field_zero v (u x) (ge gt x) (FacetNormal mesh x) (CellSize mesh x)).
  intros F1 F2 F3 F4. unfold_ufl. intros Ec Ei Ee.
  apply Form_eq; cbn [cell ifacet efacet]; nra.
Qed.

Lemma lhs_bdf2_homogeneous (b0 b1 : Fn) (gt : R) (x : pt) (k : R)
    (B v : field) :
  lhs (F_bdf2 mesh dt b0 b1 gt) x (field_scale k B) v
  = fscale k (lhs (F_bdf2 mesh dt b0 b1 gt) x B v).
Proof.
  unfold lhs, F_bdf2.
  pose proof (BForm_trial_part_homogeneous k B v (u x) (ge gt x)
                (FacetNormal mesh x) (CellSize mesh x)) as E.
  apply (f_equal cell) in E as Ec.
  apply (f_equal ifacet) in E as Ei.
  apply (f_equal efacet) in E as Ee.
  revert Ec Ei Ee.
  generalize (BForm B v (u x) (ge gt x) (FacetNormal mesh x) (CellSize mesh x)),
    (BForm (field_scale k B) v (u x) (ge gt x) (FacetNormal mesh x)
       (CellSize mesh x)),
    (BForm field_zero v (u x) (ge gt x) (FacetNormal mesh x) (CellSize mesh x)).
  intros F1 F2 F3. unfold_ufl. intros Ec Ei Ee.
  apply Form_eq; cbn [cell ifacet efacet]; nra.
Qed.

(** The script's forms and the specification's. *)
Lemma F_bdf2_is_residual (b0 b1 : Fn) (gt : R) (x : pt) (B v : field) :
  F_bdf2 mesh dt b0 b1 gt x B v = bdf2_residual mesh dt b0 b1 gt x B v.
Proof.
  unfold F_bdf2, bdf2_residual.
  generalize (BForm B v (u x) (ge gt x) (FacetNormal mesh x) (CellSize mesh x)).
  intros F. unfold_ufl. apply Form_eq; cbn [cell ifacet efacet]; lra.
Qed.

Lemma F_bdf1_is_scaled_residual (b0 : Fn) (gt : R) (x : pt) (B v : field) :
  dt <> 0 ->
  F_bdf1 mesh dt b0 gt x B v = fscale dt (euler_residual mesh dt b0 gt x B v).
Proof.
  intros Hdt. unfold F_bdf1, euler_residual.
  generalize (BForm B v (u x) (ge gt x) (FacetNormal mesh x) (CellSize mesh x)).
  intros F. unfold_ufl. apply Form_eq; cbn [cell ifacet efacet]; field; lra.
Qed.

Lemma fscale_zero_iff (k : R) (F : Form) :
  k <> 0 -> (fscale k F = fzero <-> F = fzero).
Proof.
  intros Hk. destruct F as [a b c]. unfold fscale, fzero.
  cbn [cell ifacet efacet]. split; intros E.
  - pose proof (f_equal cell E) as Ea.
    pose proof (f_equal ifacet E) as Eb.
    pose proof (f_equal efacet E) as Ec.
    cbn [cell ifacet efacet] in Ea, Eb, Ec.
    apply Form_eq; cbn [cell ifacet efacet]; nra.
  - pose proof (f_equal cell E) as Ea.
    pose proof (f_equal ifacet E) as Eb.
    pose proof (f_equal efacet E) as Ec.
    cbn [cell ifacet efacet] in Ea, Eb, Ec.
    apply Form_eq; cbn [cell ifacet efacet]; nra.
Qed.

Lemma bdf1_system_is_euler (b0 : Fn) (gt : R) (x : pt) (B v : field) :
  dt <> 0 ->
  (lhs (F_bdf1 mesh dt b0 gt) x B v = rhs (F_bdf1 mesh dt b0 gt) x v
   <-> euler_residual mesh dt b0 gt x B v = fzero).
Proof.
  intros Hdt. rewrite lhs_rhs_residual, F_bdf1_is_scaled_residual by exact Hdt.
  apply fscale_zero_iff; exact Hdt.
Qed.

Lemma bdf2_system_is_residual (b0 b1 : Fn) (gt : R) (x : pt) (B v : field) :
  lhs (F_bdf2 mesh dt b0 b1 gt) x B v = rhs (F_bdf2 mesh dt b0 b1 gt) x v
  <-> bdf2_residual mesh dt b0 b1 gt x B v = fzero.
Proof. now rewrite lhs_rhs_residual, F_bdf2_is_residual. Qed.

End Forms.

(** ** Time accounting *)

Section Time.

Lemma PI_gt_3 : 3 < PI.
Proof. pose proof PI2_3_2. lra. Qed.

Lemma PI_lt_4 : PI < 4.
Proof.
  destruct (PI_ineq 1) as [_ Hu].
  unfold sum_f_R0, tg_alt, PI_tg in Hu. simpl in Hu. lra.
Qed.

Lemma T_pos : 0 < T.
Proof. unfold T. pose proof PI_gt_3. lra. Qed.

Lemma Int_part_unique (r : R) (z : Z) :
  IZR z <= r < IZR z + 1 -> Int_part r = z.
Proof.
  intros [Hl Hu]. symmetry. apply Int_part_spec. lra.
Qed.

Lemma py_int_floor (x : R) : 0 <= x -> py_int x = Int_part x.
Proof. intros Hx. unfold py_int. destruct (Rle_dec 0 x); [reflexivity|lra]. Qed.

Lemma dt_guess_inv (np : Z) : dt_guess np = / IZR np.
Proof. unfold dt_guess, h_of, Rdiv. lra. Qed.

Lemma steps_quotient (np : Z) : T / dt_guess np = T * IZR np.
Proof. rewrite dt_guess_inv. unfold Rdiv. now rewrite Rinv_inv. Qed.

Lemma N_of_floor (np : Z) :
  (1 <= np)%Z -> N_of np = Int_part (T * IZR np).
Proof.
  intros Hnp. unfold N_of. rewrite steps_quotient.
  apply py_int_floor.
  assert (1 <= IZR np) by (apply IZR_le in Hnp; exact Hnp).
  pose proof T_pos. nra.
Qed.

Lemma N_of_pos (np : Z) : (1 <= np)%Z -> (1 <= N_of np)%Z.
Proof.
  intros Hnp. rewrite N_of_floor by exact Hnp.
  assert (Hn : 1 <= IZR np) by (apply IZR_le in Hnp; exact Hnp).
  destruct (base_Int_part (T * IZR np)) as [_ Hb].
  assert (Ht : 3 / 2 < T) by (unfold T; pose proof PI_gt_3; lra).
  assert (0 < IZR (Int_part (T * IZR np))) by nra.
  apply lt_IZR in H. lia.
Qed.

Lemma dt_of_pos (np : Z) : (1 <= np)%Z -> 0 < dt_of np.
Proof.
  intros Hnp. unfold dt_of.
  pose proof (N_of_pos np Hnp) as HN. apply IZR_le in HN.
  apply Rdiv_lt_0_compat; [apply T_pos|lra].
Qed.

Lemma steps_span_T (np : Z) :
  (1 <= np)%Z -> IZR (N_of np) * dt_of np = T.
Proof.
  intros Hnp. unfold dt_of.
  pose proof (N_of_pos np Hnp) as HN. apply IZR_le in HN.
  field. lra.
Qed.

Lemma N_of_1 : N_of 1 = 1%Z.
Proof.
  rewrite N_of_floor by lia. apply Int_part_unique.
  unfold T. pose proof PI_gt_3. pose proof PI_lt_4. lra.
Qed.

Lemma N_of_2 : N_of 2 = 3%Z.
Proof.
  rewrite N_of_floor by lia. apply Int_part_unique.
  unfold T. pose proof PI_gt_3. pose proof PI_lt_4. lra.
Qed.

Lemma round_quotient_1 : round_nearest (T / dt_guess 1) = 2%Z.
Proof.
  rewrite steps_quotient. apply Int_part_unique.
  unfold T. pose proof PI_gt_3. pose proof PI_lt_4. lra.
Qed.

End Time.

(** ** The steady loop *)

Section Trace.

Context {lib : FEM}.

Lemma count_app (p : event -> bool) (l l' : list event) :
  count p (l ++ l') = (count p l + count p l')%nat.
Proof. unfold count. now rewrite filter_app, length_app. Qed.

Lemma snapshots_app (l l' : list event) :
  snapshots (l ++ l') = snapshots l ++ snapshots l'.
Proof.
  induction l as [|e l IH]; [reflexivity|].
  destruct e as [[|] B| | | | | | | |]; cbn; now rewrite ?IH.
Qed.

End Trace.

Section Loop.

Context {lib : FEM}.

Variables (mesh : Mesh) (X : Space) (dt : R) (itsave : Z).

Hypothesis dt_pos : 0 < dt.
Hypothesis itsave_nz : itsave <> 0%Z.

Lemma steady_step_spec (A : Matrix) (k : nat) (st : state) :
  steady_inv dt A k st ->
  exists st',
    steady_step mesh X dt itsave st = Ok st'
    /\ steady_inv dt A (S k) st'
    /\ B2 st' = lu A (assemble_vector X
                        (rhs (F_bdf2 mesh dt (B0 st) (B1 st) (t st + dt))))
    /\ B1 st' = B2 st'
    /\ B0 st' = B1 st
    /\ g_t st' = t st + dt
    /\ t st' = t st + dt
    /\ it st' = (it st + 1)%Z
    /\ out st' = out st ++
         pass_events X dt itsave A (Nat.eqb k 0)
           (rhs (F_bdf2 mesh dt (B0 st) (B1 st) (t st + dt)))
           (B2 st') (it st') (t st').
Proof.
  intros (Hit & Ht & s & Hs & HA & Hre & Hfa).
  destruct s as [A' re fa]. cbn [lu_matrix reuse_factorization factorized] in *.
  subst A' re fa.
  unfold steady_step. rewrite Hs. unfold lu_solve.
  cbn [lu_matrix reuse_factorization factorized].
  destruct (Z.eqb_spec itsave 0) as [E|_]; [contradiction|].
  unfold pass_events, steady_inv.
  assert (Et : t st + dt = IZR (it st + 1) * dt)
    by (rewrite Ht, plus_IZR; ring).
  destruct (Nat.eqb k 0) eqn:Ek; cbn [negb andb];
    destruct ((it st + 1) mod itsave =? 0)%Z eqn:Em;
    eexists; (split; [reflexivity|]); cbn [B0 B1 B2 g_t it t solver out];
    rewrite ?Em; cbn [Nat.eqb negb];
    (split; [split; [lia|split; [exact Et|]];
             eexists; (split; [reflexivity|]);
             cbn [lu_matrix reuse_factorization factorized];
             repeat split; reflexivity |]);
    repeat split; rewrite <- ?app_assoc; reflexivity.
Qed.

Lemma steady_iter_front (m : nat) (st : state) :
  steady_iter mesh X dt (S m) itsave st
  = bind (steady_step mesh X dt itsave st) (steady_iter mesh X dt m itsave).
Proof.
  induction m as [|m IH].
  - cbn. destruct (steady_step mesh X dt itsave st); reflexivity.
  - change (steady_iter mesh X dt (S (S m)) itsave st)
      with (bind (steady_iter mesh X dt (S m) itsave st)
                 (steady_step mesh X dt itsave)).
    rewrite IH.
    destruct (steady_step mesh X dt itsave st); reflexivity.
Qed.

(** The loop makes exactly [m] passes when [m] steps are left, and stops. *)
Lemma steady_loop_runs (A : Matrix) (Nz : Z) :
  T = IZR Nz * dt ->
  forall (m fuel k : nat) (st : state),
    steady_inv dt A k st ->
    Z.of_nat (1 + k + m) = Nz ->
    (m <= fuel)%nat ->
    steady_loop mesh X dt fuel itsave st = steady_iter mesh X dt m itsave st.
Proof.
  intros HT. induction m as [|m IH]; intros fuel k st Hinv Hk Hfuel.
  - destruct Hinv as (Hit & Ht & _).
    assert (E : t st = T).
    { rewrite Ht, HT, Hit. f_equal. f_equal. lia. }
    destruct fuel; cbn; destruct (Rlt_dec (t st) T); try lra; reflexivity.
  - destruct fuel as [|fuel]; [lia|].
    pose proof Hinv as (Hit & Ht & _).
    assert (Hlt : t st < T).
    { rewrite Ht, HT, Hit. apply Rmult_lt_compat_r; [exact dt_pos|].
      apply IZR_lt. lia. }
    rewrite steady_iter_front. cbn [steady_loop].
    destruct (Rlt_dec (t st) T); [|contradiction].
    destruct (steady_step_spec A k st Hinv) as (st' & Hstep & Hinv' & _).
    rewrite Hstep. cbn [bind].
    apply (IH fuel (S k) st' Hinv'); lia.
Qed.

Lemma saves_S (k : nat) :
  saves itsave (S k)
  = (saves itsave k
     + length (if ((1 + Z.of_nat (S k)) mod itsave =? 0)%Z
               then [tt] else []))%nat.
Proof.
  unfold saves. rewrite seq_S, filter_app, length_app. cbn [filter].
  replace (Z.of_nat (1 + k)) with (Z.of_nat (S k)) by reflexivity.
  destruct ((1 + Z.of_nat (S k)) mod itsave =? 0)%Z; reflexivity.
Qed.

(** The state after [k] passes, and what the passes did. *)
Lemma steady_iter_spec (A : Matrix) (st0 : state) :
  steady_inv dt A 0 st0 ->
  forall k : nat,
  exists st,
    steady_iter mesh X dt k itsave st0 = Ok st
    /\ steady_inv dt A k st
    /\ count is_matrix_assembly (out st) = count is_matrix_assembly (out st0)
    /\ count is_solver_creation (out st) = count is_solver_creation (out st0)
    /\ count is_variational_solve (out st)
       = count is_variational_solve (out st0)
    /\ count is_vector_assembly (out st)
       = (count is_vector_assembly (out st0) + k)%nat
    /\ count is_substitution (out st)
       = (count is_substitution (out st0) + k)%nat
    /\ count is_factorization (out st)
       = (count is_factorization (out st0) + Nat.min k 1)%nat
    /\ exists extra, snapshots (out st) = snapshots (out st0) ++ extra
                     /\ length extra = saves itsave k.
Proof.
  intros H0. induction k as [|k IH].
  - exists st0. cbn [steady_iter].
    split; [reflexivity|]. split; [exact H0|].
    repeat split; try lia.
    exists []. now rewrite app_nil_r.
  - destruct IH as (st & Hiter & Hinv & Hm & Hc & Hv & Hl & Hsu & Hf
                     & extra & Hsn & Hlen).
    destruct (steady_step_spec A k st Hinv)
      as (st' & Hstep & Hinv' & _ & HB1 & _ & _ & _ & Hit' & Hout).
    exists st'. cbn [steady_iter]. rewrite Hiter. cbn [bind].
    split; [exact Hstep|]. split; [exact Hinv'|].
    rewrite Hout. unfold pass_events. rewrite !count_app, !snapshots_app.
    rewrite Hm, Hc, Hv, Hl, Hsu, Hf, Hsn.
    assert (Eit : it st' = (1 + Z.of_nat (S k))%Z) by (destruct Hinv'; lia).
    repeat split.
    + destruct (Nat.eqb k 0), (it st' mod itsave =? 0)%Z; cbn; lia.
    + destruct (Nat.eqb k 0), (it st' mod itsave =? 0)%Z; cbn; lia.
    + destruct (Nat.eqb k 0), (it st' mod itsave =? 0)%Z; cbn; lia.
    + destruct (Nat.eqb k 0), (it st' mod itsave =? 0)%Z; cbn; lia.
    + destruct (Nat.eqb k 0), (it st' mod itsave =? 0)%Z; cbn; lia.
    + destruct k as [|[|k]], (it st' mod itsave =? 0)%Z; cbn; lia.
    + rewrite saves_S. replace (1 + Z.of_nat (S k))%Z with (it st') by lia.
      exists (extra ++ if (it st' mod itsave =? 0)%Z then [B2 st'] else []).
      split.
      * destruct (Nat.eqb k 0), (it st' mod itsave =? 0)%Z; cbn;
          rewrite ?app_nil_r, <- ?app_assoc; reflexivity.
      * rewrite length_app, Hlen.
        destruct (it st' mod itsave =? 0)%Z; reflexivity.
Qed.

End Loop.

(** ** A whole run *)

Section RunFacts.

Context {lib : FEM}.

Variables (degree np itsave : Z).

Hypothesis np_pos : (1 <= np)%Z.
Hypothesis itsave_nz : itsave <> 0%Z.

Lemma after_bootstrap_out :
  out (after_bootstrap degree np)
  = [EvWrite sol_pvd (initial_field degree np);
     EvVariationalSolve
       (lhs (F_bdf1 (mesh_of np) (dt_of np) (initial_field degree np)
                    (dt_of np)))
       (rhs (F_bdf1 (mesh_of np) (dt_of np) (initial_field degree np)
                    (dt_of np)))].
Proof. reflexivity. Qed.

Lemma steady_start_out :
  out (steady_start degree np)
  = out (after_bootstrap degree np)
    ++ [EvAssembleMatrix (system_form degree np);
        EvLUSolver (system_matrix degree np)].
Proof. reflexivity. Qed.

Lemma steady_start_inv :
  steady_inv (dt_of np) (system_matrix degree np) 0 (steady_start degree np).
Proof.
  unfold steady_inv. split; [reflexivity|]. split.
  - cbn. lra.
  - eexists. split; [reflexivity|]. repeat split.
Qed.

Lemma steps_total :
  Z.of_nat (1 + 0 + steady_steps np) = N_of np.
Proof. pose proof (N_of_pos np np_pos). unfold steady_steps. lia. Qed.

(** After any number of passes. *)
Lemma steady_after_spec (k : nat) :
  exists st,
    steady_after degree np itsave k = Ok st
    /\ steady_inv (dt_of np) (system_matrix degree np) k st
    /\ count is_matrix_assembly (out st) = 1%nat
    /\ count is_solver_creation (out st) = 1%nat
    /\ count is_variational_solve (out st) = 1%nat
    /\ count is_vector_assembly (out st) = k
    /\ count is_substitution (out st) = k
    /\ count is_factorization (out st) = Nat.min k 1
    /\ exists extra,
         snapshots (out st) = initial_field degree np :: extra
         /\ length extra = saves itsave k.
Proof.
  destruct (steady_iter_spec (mesh_of np) (space_of degree np) (dt_of np)
              itsave itsave_nz (system_matrix degree np)
              (steady_start degree np) steady_start_inv k)
    as (st & Hit & Hinv & Hm & Hc & Hv & Hl & Hsu & Hf & extra & Hsn & Hlen).
  exists st. split; [exact Hit|]. split; [exact Hinv|].
  rewrite Hm, Hc, Hv, Hl, Hsu, Hf, Hsn.
  repeat split. exists extra. split; [reflexivity|exact Hlen].
Qed.

(** One more pass: what it solves and how it shifts the history. *)
Lemma steady_after_step (k : nat) :
  exists st st',
    steady_after degree np itsave k = Ok st
    /\ steady_after degree np itsave (S k) = Ok st'
    /\ steady_step (mesh_of np) (space_of degree np) (dt_of np) itsave st
       = Ok st'
    /\ B2 st' = lu (system_matrix degree np)
                   (assemble_vector (space_of degree np)
                                    (pass_rhs degree np st))
    /\ B1 st' = B2 st'
    /\ B0 st' = B1 st
    /\ g_t st' = t st + dt_of np
    /\ t st' = t st + dt_of np
    /\ it st' = (it st + 1)%Z
    /\ it st = (1 + Z.of_nat k)%Z
    /\ t st = IZR (it st) * dt_of np.
Proof.
  destruct (steady_after_spec k) as (st & Hst & Hinv & _).
  destruct (steady_step_spec (mesh_of np) (space_of degree np) (dt_of np)
              itsave itsave_nz (system_matrix degree np) k st Hinv)
    as (st' & Hstep & _ & HB2 & HB1 & HB0 & Hg & Ht & Hit & _).
  exists st, st'. split; [exact Hst|]. split.
  - unfold steady_after in *. cbn [steady_iter]. rewrite Hst. exact Hstep.
  - destruct Hinv as (Hi & Hti & _). repeat split; assumption.
Qed.

(** The run ends, after [steady_steps np] passes. *)
Lemma solve_induction_run (fuel : nat) :
  (steady_steps np <= fuel)%nat ->
  exists st3,
    steady_after degree np itsave (steady_steps np) = Ok st3
    /\ solve_induction fuel degree np itsave
       = Ok (finish (space_of degree np) st3).
Proof.
  intros Hfuel.
  destruct (steady_after_spec (steady_steps np)) as (st3 & Hst3 & _).
  exists st3. split; [exact Hst3|].
  unfold solve_induction.
  destruct (Z.leb_spec np 0) as [Hle|_]; [lia|].
  pose proof (N_of_pos np np_pos) as HN.
  destruct (Z.eqb_spec (N_of np) 0) as [E|_]; [lia|].
  change (bind (steady_loop (mesh_of np) (space_of degree np) (dt_of np)
                            fuel itsave (steady_start degree np))
               (fun st => Ok (finish (space_of degree np) st))
          = Ok (finish (space_of degree np) st3)).
  rewrite (steady_loop_runs (mesh_of np) (space_of degree np) (dt_of np)
             itsave (dt_of_pos np np_pos) itsave_nz
             (system_matrix degree np) (N_of np)
             (eq_sym (steps_span_T np np_pos))
             (steady_steps np) fuel 0 (steady_start degree np)
             steady_start_inv steps_total Hfuel).
  unfold steady_after in Hst3. rewrite Hst3. reflexivity.
Qed.

End RunFacts.

Section Summary.

Context {lib : FEM}.

Lemma saves_all (k : nat) : saves 1 k = k.
Proof.
  unfold saves. rewrite <- (length_seq k 1) at 2. f_equal.
  apply forallb_filter_id. apply forallb_forall. intros j _.
  rewrite Z.mod_1_r. reflexivity.
Qed.

Lemma saves_none (itsave : Z) (k : nat) :
  (1 + Z.of_nat k < itsave)%Z -> saves itsave k = 0%nat.
Proof.
  intros Hk. unfold saves.
  rewrite (filter_ext_in _ (fun _ => false)), filter_false; [reflexivity|].
  intros j Hj. apply in_seq in Hj.
  rewrite Z.mod_small by lia.
  destruct (Z.eqb_spec (1 + Z.of_nat j) 0); [lia|reflexivity].
Qed.

Lemma N_of_ge_3 (np : Z) : (2 <= np)%Z -> (3 <= N_of np)%Z.
Proof.
  intros Hnp. rewrite N_of_floor by lia.
  assert (Hn : 2 <= IZR np) by (apply IZR_le in Hnp; exact Hnp).
  destruct (base_Int_part (T * IZR np)) as [_ Hb].
  assert (Ht : 3 / 2 < T) by (unfold T; pose proof PI_gt_3; lra).
  assert (H : 2 < IZR (Int_part (T * IZR np))) by nra.
  apply lt_IZR in H. lia.
Qed.

Lemma finish_state (X : Space) (st : state) :
  snd (finish X st)
  = emit [EvAssembleScalar;
          EvWrite Berr_pvd
            (fn_sub (B2 st) (interpolate (ge (t st)) X))] st.
Proof. reflexivity. Qed.

(** Everything the claims need about the state a run ends in. *)
Lemma run_summary (fuel : nat) (degree np itsave : Z) :
  (1 <= np)%Z -> itsave <> 0%Z -> (steady_steps np <= fuel)%nat ->
  exists d e st st3,
    solve_induction fuel degree np itsave = Ok (d, e, st)
    /\ steady_after degree np itsave (steady_steps np) = Ok st3
    /\ st = snd (finish (space_of degree np) st3)
    /\ (d, e) = fst (finish (space_of degree np) st3)
    /\ it st = N_of np
    /\ t st = T
    /\ count is_matrix_assembly (out st) = 1%nat
    /\ count is_solver_creation (out st) = 1%nat
    /\ count is_variational_solve (out st) = 1%nat
    /\ count is_vector_assembly (out st) = steady_steps np
    /\ count is_substitution (out st) = steady_steps np
    /\ count is_factorization (out st) = Nat.min (steady_steps np) 1
    /\ exists extra,
         snapshots (out st) = initial_field degree np :: extra
         /\ length extra = saves itsave (steady_steps np).
Proof.
  intros Hnp Hs Hfuel.
  destruct (solve_induction_run degree np itsave Hnp Hs fuel Hfuel)
    as (st3 & Hst3 & Hrun).
  destruct (steady_after_spec degree np itsave Hs (steady_steps np))
    as (st3' & Hst3' & Hinv & Hm & Hc & Hv & Hl & Hsu & Hf & extra & Hsn
        & Hlen).
  rewrite Hst3 in Hst3'. injection Hst3' as <-.
  destruct (finish (space_of degree np) st3) as [[d e] st] eqn:Efin.
  exists d, e, st, st3. split; [exact Hrun|]. split; [exact Hst3|].
  assert (Est : st = snd (finish (space_of degree np) st3))
    by (rewrite Efin; reflexivity).
  assert (Ee : (d, e) = fst (finish (space_of degree np) st3))
    by (rewrite Efin; reflexivity).
  split; [exact Est|]. split; [exact Ee|].
  rewrite Est, finish_state. unfold emit. cbn [it t out].
  rewrite !count_app, snapshots_app, Hm, Hc, Hv, Hl, Hsu, Hf, Hsn.
  destruct Hinv as (Hit & Ht & _).
  pose proof (steps_total np Hnp) as Htot.
  repeat split; cbn; try lia.
  - rewrite Ht, Hit, <- (steps_span_T np Hnp). f_equal. f_equal. lia.
  - exists extra. rewrite app_nil_r. split; [reflexivity|exact Hlen].
Qed.

End Summary.

(** ** The time integrator: what the specification says of it *)

(** C3, as the script has it: the step count is the quotient [T/dt]
    cut down to an integer ([int(T/dt)], not rounded to the nearest),
    and [dt] is then [T/N], so that [N] steps span [T]. *)
Theorem steps_truncated (np : Z) :
  (1 <= np)%Z ->
  T = PI / 2
  /\ dt_guess np = 0.5 * (2 / IZR np)
  /\ N_of np = Int_part (T / dt_guess np)
  /\ IZR (N_of np) <= T / dt_guess np < IZR (N_of np) + 1
  /\ (1 <= N_of np)%Z
  /\ dt_of np = T / IZR (N_of np)
  /\ IZR (N_of np) * dt_of np = T.
Proof.
  intros Hnp.
  assert (EN : N_of np = Int_part (T / dt_guess np)).
  { rewrite steps_quotient. apply N_of_floor, Hnp. }
  split; [unfold T; lra|].
  split; [unfold dt_guess, h_of; lra|].
  split; [exact EN|].
  split.
  - rewrite EN. destruct (base_Int_part (T / dt_guess np)). lra.
  - split; [apply N_of_pos, Hnp|].
    split; [reflexivity|apply steps_span_T, Hnp].
Qed.

Lemma steps_truncated_witness :
  (1 <= 2)%Z
  /\ (T = PI / 2
      /\ dt_guess 2 = 0.5 * (2 / IZR 2)
      /\ N_of 2 = Int_part (T / dt_guess 2)
      /\ IZR (N_of 2) <= T / dt_guess 2 < IZR (N_of 2) + 1
      /\ (1 <= N_of 2)%Z
      /\ dt_of 2 = T / IZR (N_of 2)
      /\ IZR (N_of 2) * dt_of 2 = T).
Proof. split; [lia | apply (steps_truncated 2); lia]. Defined.

(** C3 as stated fails: on one cell per side the quotient is [pi/2],
    which the script cuts to 1 and rounding would take to 2. *)
Lemma steps_not_rounded :
  N_of 1 = 1%Z
  /\ round_nearest (T / dt_guess 1) = 2%Z
  /\ N_of 1 <> round_nearest (T / dt_guess 1).
Proof.
  split; [exact N_of_1|]. split; [exact round_quotient_1|].
  rewrite N_of_1, round_quotient_1. discriminate.
Qed.

Section Claims.

Context {lib : FEM}.

(** C7: every pass shifts the history by one place: the new [B1] is
    the [B2] this pass solved for, the new [B0] is the [B1] held before. *)
Theorem history_shift (degree np itsave : Z) (k : nat) :
  itsave <> 0%Z ->
  exists sk sk',
    steady_after degree np itsave k = Ok sk
    /\ steady_step (mesh_of np) (space_of degree np) (dt_of np) itsave sk
       = Ok sk'
    /\ steady_after degree np itsave (S k) = Ok sk'
    /\ B2 sk' = lu (system_matrix degree np)
                   (assemble_vector (space_of degree np)
                                    (pass_rhs degree np sk))
    /\ B1 sk' = B2 sk'
    /\ B0 sk' = B1 sk.
Proof.
  intros Hs.
  destruct (steady_after_step degree np itsave Hs k)
    as (sk & sk' & Hsk & Hsk' & Hstep & HB2 & HB1 & HB0 & _).
  exists sk, sk'. repeat split; assumption.
Qed.

(** C10: without [-s] the interval is 1000000; in a run of fewer than
    1000000 steps no [it] is a multiple of it, and the solution file
    holds the initial condition alone. *)
Theorem default_interval_saves_initial_only
    (fuel : nat) (d0 np : Z) (Ns : list Z) :
  (1 <= np)%Z -> (N_of np < 1000000)%Z -> (steady_steps np <= fuel)%nat ->
  save_interval (mkArgs d0 Ns None) = 1000000%Z
  /\ (forall i : Z, (1 <= i <= N_of np)%Z ->
        (i mod save_interval (mkArgs d0 Ns None) =? 0)%Z = false)
  /\ exists d e st,
       solve_induction fuel d0 np (save_interval (mkArgs d0 Ns None))
       = Ok (d, e, st)
       /\ snapshots (out st) = [initial_field d0 np].
Proof.
  intros Hnp HN Hfuel. split; [reflexivity|]. split.
  - intros i Hi. cbn [save_interval s]. rewrite Z.mod_small by lia.
    destruct (Z.eqb_spec i 0); [lia|reflexivity].
  - assert (Hs : 1000000%Z <> 0%Z) by lia.
    destruct (run_summary fuel d0 np 1000000 Hnp Hs Hfuel)
      as (d & e & st & st3 & Hrun & _ & _ & _ & _ & _ & _ & _ & _ & _ & _ & _
          & extra & Hsn & Hlen).
    exists d, e, st. split; [exact Hrun|].
    rewrite saves_none in Hlen
      by (pose proof (steps_total np Hnp); lia).
    destruct extra; [exact Hsn|discriminate].
Qed.

End Claims.

Section Schemes.

Context {lib : FEM}.

(** C5: the first step is one implicit Euler step: [g.t = dt], one
    one-off variational solve of [(B1 - B0)/dt + BForm(B1, .) = 0] (the
    script's form is this one times [dt > 0]), no solver kept, and then
    [it = 1], [t = dt]; the run has no other such solve. *)
Theorem bootstrap_is_one_euler_step (fuel : nat) (degree np itsave : Z) :
  (1 <= np)%Z -> itsave <> 0%Z -> (steady_steps np <= fuel)%nat ->
  let mesh := mesh_of np in
  let X := space_of degree np in
  let dt := dt_of np in
  let b0 := initial_field degree np in
  let a1 := lhs (F_bdf1 mesh dt b0 dt) in
  let L1 := rhs (F_bdf1 mesh dt b0 dt) in
  let st1 := after_bootstrap degree np in
  0 < dt
  /\ it (init X) = 0%Z /\ t (init X) = 0
  /\ g_t st1 = dt /\ it st1 = 1%Z /\ t st1 = dt
  /\ solver st1 = None
  /\ B0 st1 = b0
  /\ B1 st1 = lu (assemble_matrix X a1) (assemble_vector X L1)
  /\ out st1 = [EvWrite sol_pvd b0; EvVariationalSolve a1 L1]
  /\ (forall x B v,
        F_bdf1 mesh dt b0 dt x B v
        = fscale dt (euler_residual mesh dt b0 dt x B v))
  /\ (forall x B v,
        a1 x B v = L1 x v <-> euler_residual mesh dt b0 dt x B v = fzero)
  /\ exists d e st,
       solve_induction fuel degree np itsave = Ok (d, e, st)
       /\ count is_variational_solve (out st) = 1%nat
       /\ count is_solver_creation (out st1) = 0%nat.
Proof.
  intros Hnp Hs Hfuel mesh X dt b0 a1 L1 st1.
  pose proof (dt_of_pos np Hnp) as Hdt. fold dt in Hdt.
  assert (Hdt0 : dt <> 0) by lra.
  split; [exact Hdt|].
  split; [reflexivity|]. split; [cbn; lra|].
  split; [reflexivity|]. split; [reflexivity|].
  split; [change (0.0 + dt_of np = dt_of np); lra|].
  split; [reflexivity|]. split; [reflexivity|]. split; [reflexivity|].
  split; [reflexivity|].
  split; [intros x B v; apply F_bdf1_is_scaled_residual, Hdt0|].
  split; [intros x B v; apply bdf1_system_is_euler, Hdt0|].
  destruct (run_summary fuel degree np itsave Hnp Hs Hfuel)
    as (d & e & st & st3 & Hrun & _ & _ & _ & _ & _ & _ & _ & Hv & _).
  exists d, e, st. repeat split; assumption.
Qed.

End Schemes.

(** ** The convergence driver *)

Section Sweep.

Lemma mapM_Forall2 {A B : Type} (f : A -> res B) (l : list A) :
  (forall a, In a l -> exists b, f a = Ok b) ->
  exists bs, mapM f l = Ok bs /\ Forall2 (fun a b => f a = Ok b) l bs.
Proof.
  induction l as [|a l IH]; intros H.
  - exists []. split; [reflexivity|constructor].
  - destruct (H a (or_introl eq_refl)) as (b & Hb).
    destruct IH as (bs & Hbs & HF); [intros a' Ha'; apply H; now right|].
    exists (b :: bs). cbn [mapM]. rewrite Hb. cbn [bind]. rewrite Hbs.
    split; [reflexivity|now constructor].
Qed.

Lemma mapM_map {A B : Type} (f : A -> res B) (g : A -> B) (l : list A) :
  (forall a, In a l -> f a = Ok (g a)) -> mapM f l = Ok (map g l).
Proof.
  induction l as [|a l IH]; intros H; [reflexivity|].
  cbn [mapM map]. rewrite (H a (or_introl eq_refl)). cbn [bind].
  rewrite IH by (intros a' Ha'; apply H; now right). reflexivity.
Qed.

Lemma Forall2_nth_error {A B : Type} (R : A -> B -> Prop)
    (l : list A) (l' : list B) :
  Forall2 R l l' ->
  forall m a, nth_error l m = Some a ->
  exists b, nth_error l' m = Some b /\ R a b.
Proof.
  induction 1 as [|x y l l' Hxy _ IH]; intros m a Hm.
  - destruct m; discriminate.
  - destruct m as [|m]; cbn in *.
    + injection Hm as <-. exists y. now split.
    + apply IH, Hm.
Qed.

Lemma nth_map_error {A : Type} (f : A -> R) (l : list A) (m : nat) (a : A) :
  nth_error l m = Some a -> nth m (map f l) 0 = f a.
Proof.
  revert m. induction l as [|x l IH]; intros [|m] H; try discriminate.
  - injection H as <-. reflexivity.
  - cbn. apply IH, H.
Qed.

Lemma rate_pair_ok (er dv : list R) (m : nat) :
  0 < nth m er 0 -> 0 < nth (m + 1) er 0 ->
  0 < nth m dv 0 -> 0 < nth (m + 1) dv 0 ->
  rate_pair er dv m
  = Ok (log2 (nth m er 0 / nth (m + 1) er 0),
        log2 (nth m dv 0 / nth (m + 1) dv 0)).
Proof.
  intros He He' Hd Hd'. unfold rate_pair, np_div, math_log, log2.
  destruct (Req_dec_T (nth (m + 1) er 0) 0) as [E|_]; [lra|].
  cbn [bind].
  destruct (Rlt_dec 0 (nth m er 0 / nth (m + 1) er 0)) as [_|N];
    [|exfalso; apply N, Rdiv_lt_0_compat; assumption].
  cbn [bind]. destruct (Rlt_dec 0 2) as [_|N]; [|lra]. cbn [bind].
  destruct (Req_dec_T (nth (m + 1) dv 0) 0) as [E|_]; [lra|].
  cbn [bind].
  destruct (Rlt_dec 0 (nth m dv 0 / nth (m + 1) dv 0)) as [_|N];
    [|exfalso; apply N, Rdiv_lt_0_compat; assumption].
  reflexivity.
Qed.

Context {lib : FEM}.

(** C9: the driver runs the resolutions in the order given, keeps the
    two errors of each, and prints one rate pair for each consecutive
    pair of resolutions, [log2(err[m]/err[m+1])] for both errors: [k - 1]
    pairs for [k] resolutions, none for one resolution. *)
Theorem driver_rates (fuel : nat) (a : args) :
  (forall np, In np (N a) -> (1 <= np)%Z /\ (steady_steps np <= fuel)%nat) ->
  save_interval a <> 0%Z ->
  (forall np d e st,
     (2 <= length (N a))%nat -> In np (N a) ->
     solve_induction fuel (deg a) np (save_interval a) = Ok (d, e, st) ->
     0 < d /\ 0 < e) ->
  exists r,
    main fuel a = Ok r
    /\ length (runs r) = length (N a)
    /\ length (div_l2 r) = length (N a)
    /\ length (err_l2 r) = length (N a)
    /\ (forall m np,
          nth_error (N a) m = Some np ->
          exists st,
            solve_induction fuel (deg a) np (save_interval a)
            = Ok (nth m (div_l2 r) 0, nth m (err_l2 r) 0, st)
            /\ nth_error (runs r) m = Some st)
    /\ length (rate_table r) = (length (N a) - 1)%nat
    /\ (length (N a) = 1%nat -> rate_table r = [])
    /\ forall m,
         (m + 1 < length (N a))%nat ->
         nth_error (rate_table r) m
         = Some (log2 (nth m (err_l2 r) 0 / nth (m + 1) (err_l2 r) 0),
                 log2 (nth m (div_l2 r) 0 / nth (m + 1) (div_l2 r) 0)).
Proof.
  intros Hnp Hs Hpos.
  set (f := fun np => solve_induction fuel (deg a) np (save_interval a)).
  destruct (mapM_Forall2 f (N a)) as (rs & Hrs & HF).
  { intros np Hin. destruct (Hnp np Hin) as [H1 Hfu].
    destruct (run_summary fuel (deg a) np (save_interval a) H1 Hs Hfu)
      as (d & e & st & _ & Hrun & _).
    exists (d, e, st). exact Hrun. }
  set (dv := map (fun r => fst (fst r)) rs).
  set (er := map (fun r => snd (fst r)) rs).
  set (g := fun m => (log2 (nth m er 0 / nth (m + 1) er 0),
                      log2 (nth m dv 0 / nth (m + 1) dv 0))).
  pose proof (Forall2_length HF) as Hlen.
  assert (Hrec : forall m np, nth_error (N a) m = Some np ->
            exists st, f np = Ok (nth m dv 0, nth m er 0, st)
                       /\ nth_error (map snd rs) m = Some st).
  { intros m np Hm.
    destruct (Forall2_nth_error _ _ _ HF m np Hm) as ([[d e] st] & Hb & Hf).
    exists st. unfold dv, er.
    rewrite (nth_map_error _ rs m _ Hb), (nth_map_error _ rs m _ Hb).
    split; [exact Hf|]. rewrite nth_error_map, Hb. reflexivity. }
  assert (Hp : forall m, (m < length (N a))%nat ->
            (2 <= length (N a))%nat -> 0 < nth m dv 0 /\ 0 < nth m er 0).
  { intros m Hm H2.
    destruct (nth_error (N a) m) as [np|] eqn:E;
      [|apply nth_error_None in E; lia].
    destruct (Hrec m np E) as (st & Hf & _).
    apply (Hpos np _ _ st H2); [eapply nth_error_In, E|exact Hf]. }
  assert (Hrates : mapM (rate_pair er dv) (seq 0 (length (N a) - 1))
                   = Ok (map g (seq 0 (length (N a) - 1)))).
  { apply mapM_map. intros m Hm. apply in_seq in Hm. unfold g.
    apply rate_pair_ok; apply Hp; lia. }
  exists (mkReport (map snd rs) dv er (map g (seq 0 (length (N a) - 1)))).
  split.
  { unfold main. fold f. rewrite Hrs. cbn [bind]. fold dv er.
    rewrite Hrates. reflexivity. }
  cbn [runs div_l2 err_l2 rate_table]. unfold dv, er.
  rewrite !length_map, length_seq.
  split; [lia|]. split; [lia|]. split; [lia|].
  split; [exact Hrec|]. split; [reflexivity|]. split.
  - intros E. rewrite E. reflexivity.
  - intros m Hm. rewrite nth_error_map, nth_error_seq.
    destruct (Nat.ltb_spec m (length (N a) - 1)); [reflexivity|lia].
Qed.

End Sweep.

(** ** The model at work on the one-point library *)

Section Instances.

Lemma steady_steps_1 : steady_steps 1 = 0%nat.
Proof. unfold steady_steps. rewrite N_of_1. reflexivity. Qed.

Lemma steady_steps_2 : steady_steps 2 = 2%nat.
Proof. unfold steady_steps. rewrite N_of_2. reflexivity. Qed.

Lemma toy_errors (fuel : nat) (degree np itsave : Z) (d e : R)
    (st : @state toy_fem) :
  @solve_induction toy_fem fuel degree np itsave = Ok (d, e, st) ->
  0 < d /\ 0 < e.
Proof.
  unfold solve_induction. destruct (np <=? 0)%Z; [discriminate|].
  destruct (N_of np =? 0)%Z; [discriminate|].
  destruct (steady_loop _ _ _ fuel itsave _) as [st3| |]; try discriminate.
  cbn [bind]. unfold finish. intros E. injection E as <- <- _.
  cbn [assemble_scalar errornorm toy_fem]. rewrite sqrt_1. lra.
Qed.

Lemma history_shift_witness :
  1%Z <> 0%Z
  /\ exists sk sk',
       @steady_after toy_fem 1 2 1 0 = Ok sk
       /\ @steady_after toy_fem 1 2 1 1 = Ok sk'
       /\ B1 sk' = B2 sk' /\ B0 sk' = B1 sk.
Proof.
  assert (H2 : 1%Z <> 0%Z) by lia.
  split; [exact H2|].
  destruct (@history_shift toy_fem 1 2 1 0%nat H2)
    as (sk & sk' & Hsk & _ & Hsk' & _ & HB1 & HB0).
  exists sk, sk'. split; [exact Hsk|]. split; [exact Hsk'|].
  split; [exact HB1|exact HB0].
Defined.

(** C8 as stated fails: on two cells per side and [s = 1] the run has
    [N = 3] steps and writes 3 snapshots, not [N + 1 = 4]. *)
Lemma snapshot_count_not_N_plus_1 :
  exists d e st,
    @solve_induction toy_fem 2 1 2 1 = Ok (d, e, st)
    /\ N_of 2 = 3%Z
    /\ length (snapshots (out st)) = 3%nat
    /\ Z.of_nat (length (snapshots (out st))) <> (N_of 2 + 1)%Z.
Proof.
  assert (H1 : (1 <= 2)%Z) by lia.
  assert (H2 : 1%Z <> 0%Z) by lia.
  assert (H3 : (steady_steps 2 <= 2)%nat) by (rewrite steady_steps_2; lia).
  destruct (@run_summary toy_fem 2 1 2 1 H1 H2 H3)
    as (d & e & st & st3 & Hrun & _ & _ & _ & _ & _ & _ & _ & _ & _ & _ & _
        & extra & Hsn & Hlen).
  exists d, e, st. split; [exact Hrun|]. split; [exact N_of_2|].
  rewrite Hsn. cbn [length]. rewrite Hlen, saves_all, steady_steps_2, N_of_2.
  split; [reflexivity|discriminate].
Qed.

Lemma default_interval_saves_initial_only_witness :
  (1 <= 2)%Z /\ (N_of 2 < 1000000)%Z /\ (steady_steps 2 <= 2)%nat
  /\ exists d e st,
       @solve_induction toy_fem 2 1 2
         (@save_interval (mkArgs 1 [2%Z] None)) = Ok (d, e, st)
       /\ snapshots (out st) = [@initial_field toy_fem 1 2].
Proof.
  assert (H1 : (1 <= 2)%Z) by lia.
  assert (H2 : (N_of 2 < 1000000)%Z) by (rewrite N_of_2; lia).
  assert (H3 : (steady_steps 2 <= 2)%nat) by (rewrite steady_steps_2; lia).
  split; [exact H1|]. split; [exact H2|]. split; [exact H3|].
  destruct (@default_interval_saves_initial_only toy_fem 2 1 2 [2%Z]
              H1 H2 H3) as (_ & _ & H).
  exact H.
Defined.

Lemma bootstrap_is_one_euler_step_witness :
  (1 <= 2)%Z /\ 1%Z <> 0%Z /\ (steady_steps 2 <= 2)%nat
  /\ 0 < dt_of 2
  /\ it (@after_bootstrap toy_fem 1 2) = 1%Z
  /\ t (@after_bootstrap toy_fem 1 2) = dt_of 2
  /\ g_t (@after_bootstrap toy_fem 1 2) = dt_of 2.
Proof.
  assert (H1 : (1 <= 2)%Z) by lia.
  assert (H2 : 1%Z <> 0%Z) by lia.
  assert (H3 : (steady_steps 2 <= 2)%nat) by (rewrite steady_steps_2; lia).
  split; [exact H1|]. split; [exact H2|]. split; [exact H3|].
  destruct (@bootstrap_is_one_euler_step toy_fem 2 1 2 1 H1 H2 H3)
    as (Hdt & _ & _ & Hg & Hit & Ht & _).
  split; [exact Hdt|]. split; [exact Hit|]. split; [exact Ht|exact Hg].
Defined.

Lemma driver_rates_witness :
  (forall np, In np [1%Z; 2%Z] ->
     (1 <= np)%Z /\ (steady_steps np <= 2)%nat)
  /\ 1%Z <> 0%Z
  /\ exists r,
       @main toy_fem 2 (mkArgs 1 [1%Z; 2%Z] (Some 1%Z)) = Ok r
       /\ length (rate_table r) = 1%nat
       /\ nth_error (rate_table r) 0
          = Some (log2 (nth 0 (err_l2 r) 0 / nth 1 (err_l2 r) 0),
                  log2 (nth 0 (div_l2 r) 0 / nth 1 (div_l2 r) 0)).
Proof.
  assert (H1 : forall np, In np [1%Z; 2%Z] ->
                 (1 <= np)%Z /\ (steady_steps np <= 2)%nat).
  { intros np [<-|[<-|[]]].
    - rewrite steady_steps_1. split; lia.
    - rewrite steady_steps_2. split; lia. }
  assert (H2 : 1%Z <> 0%Z) by lia.
  split; [exact H1|]. split; [exact H2|].
  destruct (@driver_rates toy_fem 2 (mkArgs 1 [1%Z; 2%Z] (Some 1%Z)) H1 H2)
    as (r & Hmain & _ & _ & _ & _ & Hlen & _ & Hrate).
  { intros np d e st _ _ Hrun. exact (toy_errors _ _ _ _ _ _ _ Hrun). }
  exists r. split; [exact Hmain|]. split; [exact Hlen|].
  apply (Hrate 0%nat). cbn. lia.
Defined.

End Instances.

(** ** More on the weak form *)

Section FluxFacts.

(** X1: the two halves [unp], [unm] of the normal velocity add up to
    it; [unp] is its positive part and [unm] its negative part, never
    both present, and they differ by [|un|]. *)
Theorem upwind_splitting (u n : vector) (s : side) :
  unp_of u n s + unm_of u n s = un_of u n s
  /\ 0 <= unp_of u n s
  /\ unm_of u n s <= 0
  /\ unp_of u n s * unm_of u n s = 0
  /\ unp_of u n s - unm_of u n s = Rabs (un_of u n s).
Proof.
  unfold unp_of, unm_of, smul, sadd, ssub, sabs, cst.
  generalize (un_of u n s). intros x.
  unfold Rabs. destruct (Rcase_abs x); repeat split; nra.
Qed.

Lemma vec_eq (a b : vec) : c0 a = c0 b -> c1 a = c1 b -> a = b.
Proof. destruct a, b; cbn; intros; subst; reflexivity. Qed.

(** X2: where [B] is continuous across an interior facet whose two
    normals are opposite, the interior-facet integrand of the advective
    part is the flux [(u.n) B - (B.n) u] of the equation, taken on the
    '+' side, against the jump of [v]: the upwinding and the correction
    term add nothing. *)
Theorem interior_flux_consistent (B v : field) (u g n : vector)
    (h : scalar) :
  val B Plus = val B Minus ->
  c0 (n Minus) = - c0 (n Plus) ->
  c1 (n Minus) = - c1 (n Plus) ->
  ifacet (BForm_F1 B v u g n h)
  = vdot (physical_flux (val B Plus) (u Plus) (n Plus))
         (vminus (val v Plus) (val v Minus)).
Proof.
  intros HB Hn0 Hn1.
  destruct (upwind_splitting u n Plus) as (Hsum & _).
  unfold BForm_F1, H_of, fadd, fsub, dx, dS, ds. cbn [cell ifacet efacet].
  unfold physical_flux, inner, dot, vadd, vsub, vscale, pos, neg, vavg, avg,
    jump, smul, cst, here, un_of in *.
  rewrite <- HB. revert Hsum.
  generalize (unp_of u n Plus), (unm_of u n Plus). intros p m Hsum.
  unfold un_of, dot in Hsum.
  destruct (val B Plus) as [b0 b1], (val v Plus) as [vp0 vp1],
    (val v Minus) as [vm0 vm1], (u Plus) as [up0 up1],
    (u Minus) as [um0 um1], (n Plus) as [np0 np1], (n Minus) as [nm0 nm1].
  unfold vdot, vminus, vplus, vmult in *. cbn [c0 c1] in *.
  subst nm0 nm1. replace 0.5 with (1 / 2) by lra.
  replace p with (up0 * np0 + up1 * np1 - m) by lra. field.
Qed.

Lemma interior_flux_consistent_witness :
  let B := mkfield (fun _ => mkvec 1 2) (fun _ _ => vzero) in
  let v := mkfield (fun s => match s with
                             | Plus => mkvec 1 0
                             | Minus => mkvec 0 0
                             end) (fun _ _ => vzero) in
  let u : vector := fun _ => mkvec 3 0 in
  let n : vector := fun s => match s with
                             | Plus => mkvec 1 0
                             | Minus => mkvec (- (1)) (- 0)
                             end in
  ifacet (BForm_F1 B v u no_data n (cst 1))
  = vdot (physical_flux (val B Plus) (u Plus) (n Plus))
         (vminus (val v Plus) (val v Minus)).
Proof.
  intros B v u n.
  apply (interior_flux_consistent B v u no_data n (cst 1));
    reflexivity.
Defined.

(** X3: on an exterior facet where the flow leaves the domain
    ([u.n >= 0]) the advective boundary integrand is the flux of the
    interior state [B] alone: the boundary data [g] play no part. *)
Theorem boundary_flux_outflow (B v : field) (u g n : vector) (h : scalar) :
  0 <= vdot (u here) (n here) ->
  efacet (BForm_F1 B v u g n h)
  = vdot (physical_flux (val B here) (u here) (n here)) (val v here).
Proof.
  intros Hun.
  pose proof (unp_is_max u n here) as Hp.
  pose proof (unm_is_min u n here) as Hm.
  unfold un_plus in Hp. unfold un_minus in Hm.
  rewrite Rmax_left in Hp by exact Hun.
  rewrite Rmin_right in Hm by exact Hun.
  unfold BForm_F1, Hb_of, fadd, fsub, dx, dS, ds. cbn [cell ifacet efacet].
  unfold physical_flux, inner, dot, vadd, vsub, vscale, smul.
  rewrite Hp, Hm.
  destruct (val B here) as [b0 b1], (val v here) as [v0 v1],
    (u here) as [u0 u1], (n here) as [n0 n1], (g here) as [g0 g1].
  unfold vdot, vminus, vplus, vmult. cbn [c0 c1]. ring.
Qed.

Lemma boundary_flux_outflow_witness :
  let B := mkfield (fun _ => mkvec 1 2) (fun _ _ => vzero) in
  let v := mkfield (fun _ => mkvec 1 1) (fun _ _ => vzero) in
  let u : vector := fun _ => mkvec 3 0 in
  let g : vector := fun _ => mkvec 5 7 in
  let n : vector := fun _ => mkvec 1 0 in
  0 <= vdot (u here) (n here)
  /\ efacet (BForm_F1 B v u g n (cst 1))
     = vdot (physical_flux (val B here) (u here) (n here)) (val v here).
Proof.
  intros B v u g n.
  assert (H : 0 <= vdot (u here) (n here))
    by (unfold u, n, vdot, here; cbn [c0 c1]; lra).
  split; [exact H|].
  exact (boundary_flux_outflow B v u g n (cst 1) H).
Defined.

(** X4: where the flow enters ([u.n <= 0]) the transported state is
    the boundary data: the integrand is [(u.n) g - (B.n) u] against [v]. *)
Theorem boundary_flux_inflow (B v : field) (u g n : vector) (h : scalar) :
  vdot (u here) (n here) <= 0 ->
  efacet (BForm_F1 B v u g n h)
  = vdot (vminus (vmult (vdot (u here) (n here)) (g here))
                 (vmult (vdot (val B here) (n here)) (u here)))
         (val v here).
Proof.
  intros Hun.
  pose proof (unp_is_max u n here) as Hp.
  pose proof (unm_is_min u n here) as Hm.
  unfold un_plus in Hp. unfold un_minus in Hm.
  rewrite Rmax_right in Hp by exact Hun.
  rewrite Rmin_left in Hm by exact Hun.
  unfold BForm_F1, Hb_of, fadd, fsub, dx, dS, ds. cbn [cell ifacet efacet].
  unfold inner, dot, vadd, vsub, vscale, smul.
  rewrite Hp, Hm.
  destruct (val B here) as [b0 b1], (val v here) as [v0 v1],
    (u here) as [u0 u1], (n here) as [n0 n1], (g here) as [g0 g1].
  unfold vdot, vminus, vplus, vmult. cbn [c0 c1]. ring.
Qed.

Lemma boundary_flux_inflow_witness :
  let B := mkfield (fun _ => mkvec 1 2) (fun _ _ => vzero) in
  let v := mkfield (fun _ => mkvec 1 1) (fun _ _ => vzero) in
  let u : vector := fun _ => mkvec (- (3)) 0 in
  let g : vector := fun _ => mkvec 5 7 in
  let n : vector := fun _ => mkvec 1 0 in
  vdot (u here) (n here) <= 0
  /\ efacet (BForm_F1 B v u g n (cst 1))
     = vdot (vminus (vmult (vdot (u here) (n here)) (g here))
                    (vmult (vdot (val B here) (n here)) (u here)))
            (val v here).
Proof.
  intros B v u g n.
  assert (H : vdot (u here) (n here) <= 0)
    by (unfold u, n, vdot, here; cbn [c0 c1]; lra).
  split; [exact H|].
  exact (boundary_flux_inflow B v u g n (cst 1) H).
Defined.

(** X5: [BForm] is linear in the test function. *)
Theorem BForm_linear_in_test (B v w : field) (u g n : vector) (h : scalar)
    (k : R) :
  BForm B (field_add v w) u g n h
  = fadd (BForm B v u g n h) (BForm B w u g n h)
  /\ BForm B (field_scale k v) u g n h = fscale k (BForm B v u g n h).
Proof. split; unfold_ufl; f_equal; unfold Rdiv; ring. Qed.

(** X6: without boundary data the resistive part is symmetric in the
    trial and the test function. *)
Theorem resistive_part_symmetric (B v : field) (u n : vector) (h : scalar) :
  BForm_F2 B v u no_data n h = BForm_F2 v B u no_data n h.
Proof. unfold no_data. unfold_ufl. f_equal; unfold Rdiv; ring. Qed.

(** X7: [Cross] is the planar cross product: antisymmetric, zero on
    equal arguments, and with [dot] it gives Lagrange's identity. *)
Theorem Cross_planar (a b : vector) (s : side) :
  Cross a b s = - Cross b a s
  /\ Cross a a s = 0
  /\ Cross a b s * Cross a b s + dot a b s * dot a b s
     = dot a a s * dot b b s.
Proof.
  unfold Cross, dot, smul, ssub, at_, vdot, comp.
  destruct (a s), (b s). cbn [c0 c1]. repeat split; ring.
Qed.

(** X8: the resistive part vanishes, whatever the test function, on a
    field that is curl-free on both sides, whose tangential component
    is continuous across interior facets and equal to that of the data
    on the boundary. *)
Theorem resistive_part_consistent (B v : field) (u g n : vector)
    (h : scalar) :
  Curl B Plus = 0 -> Curl B Minus = 0 ->
  Cross n (val B) Plus + Cross n (val B) Minus = 0 ->
  Cross n (vsub (val B) g) here = 0 ->
  BForm_F2 B v u g n h = fzero.
Proof.
  intros Hp Hm Ht Hg.
  unfold BForm_F2, fadd, fsub, fzero, dx, dS, ds. cbn [cell ifacet efacet].
  unfold avg, smul, sdiv, cst, here in *.
  rewrite Hp, Hm, Hg. replace (Cross n (val B) Plus + Cross n (val B) Minus)
    with 0 by (symmetry; exact Ht).
  f_equal; unfold Rdiv; ring.
Qed.

Lemma resistive_part_consistent_witness :
  let B := mkfield (fun _ => mkvec 1 0) (fun _ _ => vzero) in
  let v := mkfield (fun _ => mkvec 1 1) (fun _ _ => mkvec 1 2) in
  let u : vector := fun _ => mkvec 3 0 in
  let g : vector := fun _ => mkvec 2 0 in
  let n : vector := fun s => match s with
                             | Plus => mkvec 1 0
                             | Minus => mkvec (- (1)) 0
                             end in
  BForm_F2 B v u g n (cst 1) = fzero.
Proof.
  intros B v u g n.
  apply (resistive_part_consistent B v u g n (cst 1));
    unfold B, g, n, Curl, Cross, ssub, smul, at_, vsub, vminus, comp, here,
      vzero;
    cbn [val dxi c0 c1]; lra.
Defined.

(** X9: without boundary data [BForm] is bilinear: it vanishes on the
    zero field and is additive and homogeneous in its first argument. *)
Theorem BForm_bilinear_without_data (B B' v : field) (u n : vector)
    (h : scalar) (k : R) :
  BForm field_zero v u no_data n h = fzero
  /\ BForm (field_add B B') v u no_data n h
     = fadd (BForm B v u no_data n h) (BForm B' v u no_data n h)
  /\ BForm (field_scale k B) v u no_data n h
     = fscale k (BForm B v u no_data n h).
Proof.
  unfold no_data. repeat split; unfold_ufl; f_equal; unfold Rdiv; ring.
Qed.

End FluxFacts.

(** ** More on the time integrator *)

Section SchemeFacts.

Context {lib : FEM}.

(** X10: the BDF2 form is exact on a history that is linear in time: if
    at a point [B1 = B0 + d] and the trial value is [B0 + 2 d], the form
    is [(2/3) dt] times [(d/dt) . v + BForm(B, v)]; with [d = 0], a
    state on which [BForm] vanishes solves the step. *)
Theorem bdf2_exact_on_linear_history (mesh : Mesh) (dt : R) (b0 b1 : Fn)
    (gt : R) (x : pt) (B v : field) (d : vec) :
  dt <> 0 ->
  val (local b1 x) here = vplus (val (local b0 x) here) d ->
  val B here = vplus (val (local b0 x) here) (vmult 2 d) ->
  let F := BForm B v (u x) (ge gt x) (FacetNormal mesh x) (CellSize mesh x) in
  F_bdf2 mesh dt b0 b1 gt x B v
  = fscale (2 / 3 * dt)
      (mkForm (vdot (vmult (/ dt) d) (val v here) + cell F)
              (ifacet F) (efacet F)).
Proof.
  intros Hdt H1 HB F. rewrite F_bdf2_is_residual. unfold bdf2_residual.
  fold F. rewrite H1, HB.
  destruct (val (local b0 x) here) as [p0 p1], d as [d0 d1],
    (val v here) as [v0 v1].
  unfold fscale, vdot, vplus, vminus, vmult. cbn [cell ifacet efacet c0 c1].
  apply Form_eq; cbn [cell ifacet efacet]; field; exact Hdt.
Qed.

End SchemeFacts.

Lemma bdf2_exact_on_linear_history_witness :
  let B := mkfield (fun _ => mkvec (0 + 2 * 1) (0 + 2 * 1))
                   (fun _ _ => vzero) in
  let v := mkfield (fun _ => mkvec 1 1) (fun _ _ => vzero) in
  let F := BForm B v (@u toy_fem tt) (@ge toy_fem 0 tt)
                 (@FacetNormal toy_fem tt tt) (@CellSize toy_fem tt tt) in
  @F_bdf2 toy_fem tt 1 0 (0 + 1) 0 tt B v
  = fscale (2 / 3 * 1)
      (mkForm (vdot (vmult (/ 1) (mkvec 1 1)) (val v here) + cell F)
              (ifacet F) (efacet F)).
Proof.
  intros B v F.
  apply (@bdf2_exact_on_linear_history toy_fem tt 1 0 (0 + 1) 0 tt B v
           (mkvec 1 1)); [lra|reflexivity|reflexivity].
Defined.

Section IntegratorFacts.

Context {lib : FEM}.

(** X12: the recomputed [dt] is never below the guess [0.5 h] it
    replaces, and stays under twice that guess. *)
Theorem dt_between_guess_and_twice (np : Z) :
  (1 <= np)%Z -> dt_guess np <= dt_of np < 2 * dt_guess np.
Proof.
  intros Hnp.
  pose proof (N_of_pos np Hnp) as HN. apply IZR_le in HN.
  assert (Hn : 1 <= IZR np) by (apply IZR_le in Hnp; exact Hnp).
  pose proof (N_of_floor np Hnp) as EN.
  destruct (base_Int_part (T * IZR np)) as [Hlo Hhi]. rewrite <- EN in *.
  unfold dt_of. rewrite dt_guess_inv.
  set (N := IZR (N_of np)) in *. set (q := IZR np) in *.
  assert (Hq : 0 < / q) by (apply Rinv_0_lt_compat; lra).
  assert (HNi : 0 < / N) by (apply Rinv_0_lt_compat; lra).
  assert (Eq : q * / q = 1) by (apply Rinv_r; lra).
  assert (EN' : N * / N = 1) by (apply Rinv_r; lra).
  unfold Rdiv. split.
  - apply Rmult_le_reg_r with (r := q * N); [nra|].
    replace (/ q * (q * N)) with (q * / q * N) by ring.
    replace (T * / N * (q * N)) with (T * q * (N * / N)) by ring.
    rewrite Eq, EN'. lra.
  - apply Rmult_lt_reg_r with (r := q * N); [nra|].
    replace (2 * / q * (q * N)) with (2 * (q * / q) * N) by ring.
    replace (T * / N * (q * N)) with (T * q * (N * / N)) by ring.
    rewrite Eq, EN'. lra.
Qed.

(** X13: the number of steps lies between the number of cells per side
    and twice that number. *)
Theorem steps_between_np_and_twice (np : Z) :
  (1 <= np)%Z -> (np <= N_of np < 2 * np)%Z.
Proof.
  intros Hnp.
  assert (Hn : 1 <= IZR np) by (apply IZR_le in Hnp; exact Hnp).
  pose proof (N_of_floor np Hnp) as EN.
  destruct (base_Int_part (T * IZR np)) as [Hlo Hhi]. rewrite <- EN in *.
  assert (Ht : 3 / 2 < T < 2)
    by (unfold T; pose proof PI_gt_3; pose proof PI_lt_4; lra).
  split.
  - assert (H : IZR np - 1 < IZR (N_of np)) by nra.
    rewrite <- minus_IZR in H. apply lt_IZR in H. lia.
  - apply lt_IZR. rewrite mult_IZR. nra.
Qed.

End IntegratorFacts.

Lemma dt_between_guess_and_twice_witness :
  (1 <= 2)%Z /\ dt_guess 2 <= dt_of 2 < 2 * dt_guess 2.
Proof. split; [lia | apply (dt_between_guess_and_twice 2); lia]. Defined.

Lemma steps_between_np_and_twice_witness :
  (1 <= 20)%Z /\ (20 <= N_of 20 < 2 * 20)%Z.
Proof. split; [lia | apply (steps_between_np_and_twice 20); lia]. Defined.

(** ** Saving and stopping *)

Section SavingFacts.

Lemma div_succ (s j : Z) :
  (0 < s)%Z -> (0 <= j)%Z ->
  ((j + 1) / s
   = j / s + (if ((j + 1) mod s =? 0)%Z then 1 else 0))%Z.
Proof.
  intros Hs Hj.
  pose proof (Z.div_mod j s ltac:(lia)) as Ej.
  pose proof (Z.mod_pos_bound j s Hs) as Hr.
  destruct (Z.eq_dec (j mod s + 1) s) as [E|NE].
  - assert (Ed : ((j + 1) / s = j / s + 1)%Z).
    { symmetry. apply (Z.div_unique (j + 1) s (j / s + 1) 0); lia. }
    assert (Em : ((j + 1) mod s = 0)%Z).
    { symmetry. apply (Z.mod_unique (j + 1) s (j / s + 1) 0); lia. }
    rewrite Ed, Em. reflexivity.
  - assert (Ed : ((j + 1) / s = j / s)%Z).
    { symmetry. apply (Z.div_unique (j + 1) s (j / s) (j mod s + 1)); lia. }
    assert (Em : ((j + 1) mod s = j mod s + 1)%Z).
    { symmetry. apply (Z.mod_unique (j + 1) s (j / s) (j mod s + 1)); lia. }
    rewrite Ed, Em.
    destruct (Z.eqb_spec (j mod s + 1) 0); lia.
Qed.

Lemma saves_closed (s : Z) (k : nat) :
  (1 <= s)%Z ->
  Z.of_nat (saves s k) = ((1 + Z.of_nat k) / s - 1 / s)%Z.
Proof.
  intros Hs. induction k as [|k IH].
  - cbn. lia.
  - rewrite saves_S, Nat2Z.inj_add, IH.
    replace (1 + Z.of_nat (S k))%Z with (1 + Z.of_nat k + 1)%Z by lia.
    rewrite (div_succ s (1 + Z.of_nat k)) by lia.
    destruct ((1 + Z.of_nat k + 1) mod s =? 0)%Z; cbn [length]; lia.
Qed.

Lemma mod_opp_zero (a s : Z) :
  (a mod (- s) =? 0)%Z = (a mod s =? 0)%Z.
Proof.
  destruct (Z.eq_dec s 0) as [->|Hs]; [reflexivity|].
  assert (H : (a mod (- s) = 0)%Z <-> (a mod s = 0)%Z).
  { rewrite !Z.mod_divide by lia. apply Z.divide_opp_l. }
  destruct (Z.eqb_spec (a mod s) 0), (Z.eqb_spec (a mod (- s)) 0);
    tauto || reflexivity.
Qed.

Context {lib : FEM}.

Lemma steady_step_opp (mesh : Mesh) (X : Space) (dt : R) (s : Z)
    (st : state) :
  steady_step mesh X dt (- s) st = steady_step mesh X dt s st.
Proof.
  unfold steady_step. destruct (solver st) as [sv|]; [|reflexivity].
  destruct (lu_solve sv _) as [[s' b2] evs].
  rewrite mod_opp_zero.
  replace (- s =? 0)%Z with (s =? 0)%Z; [reflexivity|].
  destruct (Z.eqb_spec s 0), (Z.eqb_spec (- s) 0); lia || reflexivity.
Qed.

Lemma steady_loop_opp (mesh : Mesh) (X : Space) (dt : R) (s : Z)
    (fuel : nat) (st : state) :
  steady_loop mesh X dt fuel (- s) st = steady_loop mesh X dt fuel s st.
Proof.
  revert st. induction fuel as [|fuel IH]; intros st; [reflexivity|].
  cbn [steady_loop]. destruct (Rlt_dec (t st) T); [|reflexivity].
  rewrite steady_step_opp.
  destruct (steady_step mesh X dt s st); cbn [bind]; [apply IH|..];
    reflexivity.
Qed.

(** X15: the sign of the save interval does not matter: a run with
    [-s] does what the run with [s] does. *)
Theorem negative_interval_same (fuel : nat) (degree np s : Z) :
  solve_induction fuel degree np (- s) = solve_induction fuel degree np s.
Proof.
  unfold solve_induction.
  destruct (np <=? 0)%Z; [reflexivity|].
  destruct (N_of np =? 0)%Z; [reflexivity|].
  rewrite steady_loop_opp. reflexivity.
Qed.

(** X16: with the interval 0 a run on two cells per side or more dies
    of [ZeroDivisionError] in its first pass through the loop. *)
Theorem zero_interval_raises (fuel : nat) (degree np : Z) :
  (2 <= np)%Z -> (1 <= fuel)%nat ->
  solve_induction fuel degree np 0 = Raise ZeroDivisionError.
Proof.
  intros Hnp Hfuel. unfold solve_induction.
  destruct (Z.leb_spec np 0) as [Hle|_]; [lia|].
  pose proof (N_of_ge_3 np Hnp) as HN.
  destruct (Z.eqb_spec (N_of np) 0) as [E|_]; [lia|].
  destruct fuel as [|fuel]; [lia|]. cbn [steady_loop].
  set (st2 := setup_bdf2 _ _ _ _).
  assert (Hlt : t st2 < T).
  { change (0.0 + dt_of np < T).
    pose proof (steps_span_T np ltac:(lia)) as Hspan.
    pose proof (dt_of_pos np ltac:(lia)) as Hdt.
    apply IZR_le in HN. nra. }
  destruct (Rlt_dec (t st2) T); [|contradiction].
  reflexivity.
Qed.

End SavingFacts.

Lemma zero_interval_raises_witness :
  (2 <= 2)%Z /\ (1 <= 1)%nat
  /\ @solve_induction toy_fem 1 1 2 0 = Raise ZeroDivisionError.
Proof.
  assert (H1 : (2 <= 2)%Z) by lia.
  assert (H2 : (1 <= 1)%nat) by lia.
  split; [exact H1|]. split; [exact H2|].
  exact (@zero_interval_raises toy_fem 1 1 2 H1 H2).
Defined.

(** ** What a run reports *)

Section ReportFacts.

Context {lib : FEM}.

(** X18: on the one-cell mesh the single step already reaches [T]: the
    loop makes no pass, whatever the interval and the budget, [B2] is
    never solved for, and the run reports the errors of the initial
    condition against the exact solution at [T]. *)
Theorem one_cell_run_measures_initial_field
    (fuel : nat) (degree itsave : Z) :
  exists d e st,
    solve_induction fuel degree 1 itsave = Ok (d, e, st)
    /\ B2 st = initial_field degree 1
    /\ e = errornorm (ge T) (initial_field degree 1)
    /\ count is_vector_assembly (out st) = 0%nat
    /\ snapshots (out st) = [initial_field degree 1].
Proof.
  assert (Edt : dt_of 1 = T) by (unfold dt_of; rewrite N_of_1; field).
  assert (Et : t (steady_start degree 1) = T).
  { change (0.0 + dt_of 1 = T). rewrite Edt. lra. }
  assert (Eloop : steady_loop (mesh_of 1) (space_of degree 1) (dt_of 1)
                    fuel itsave (steady_start degree 1)
                  = Ok (steady_start degree 1)).
  { destruct fuel; cbn [steady_loop];
      destruct (Rlt_dec (t (steady_start degree 1)) T); try lra;
      reflexivity. }
  assert (Erun : solve_induction fuel degree 1 itsave
                 = Ok (finish (space_of degree 1) (steady_start degree 1))).
  { unfold solve_induction. cbn [Z.leb Z.compare]. rewrite N_of_1.
    cbn [Z.eqb].
    change (bind (steady_loop (mesh_of 1) (space_of degree 1) (dt_of 1)
                    fuel itsave (steady_start degree 1))
                 (fun st => Ok (finish (space_of degree 1) st))
            = Ok (finish (space_of degree 1) (steady_start degree 1))).
    rewrite Eloop. reflexivity. }
  destruct (finish (space_of degree 1) (steady_start degree 1))
    as [[d e] st] eqn:Efin.
  exists d, e, st. split; [exact Erun|].
  unfold finish in Efin. injection Efin as Ed Ee Est.
  assert (E0 : 0.0 + dt_of 1 = T) by (rewrite Edt; lra).
  rewrite E0 in Ee. rewrite <- Est, <- Ee. repeat split.
Qed.

(** X19: the exact solution [ge] is the initial field carried by the
    rotation about the origin: its value at time [t] at a rotated point
    is the rotated initial value; the velocity [u] is the quarter turn
    of the position, at right angles to it. *)
Theorem exact_solution_rotates (t : R) (p : vec) (x : pt) (s : side) :
  ge_xy t (rot t p) = rot t (ge_xy 0 p)
  /\ ge t x s = ge_xy t (coords x)
  /\ u x s = u_xy (coords x)
  /\ vdot (u_xy p) p = 0.
Proof.
  split; [|split; [reflexivity|split; [reflexivity|]]].
  - unfold ge_xy, rot. cbn [c0 c1]. rewrite cos_0, sin_0.
    destruct p as [p0 p1]. cbn [c0 c1].
    pose proof (sin2_cos2 t) as H. unfold Rsqr in H.
    set (c := cos t) in *. set (sn := sin t) in *.
    assert (Ee : (c * p0 - sn * p1) * (c * p0 - sn * p1)
                 + (sn * p0 + c * p1) * (sn * p0 + c * p1)
                 - ((c * p0 - sn * p1) * c + (sn * p0 + c * p1) * sn)
                 = p0 * p0 + p1 * p1 - (p0 * 1 + p1 * 0)).
    { transitivity ((sn * sn + c * c) * (p0 * p0 + p1 * p1)
                    - (sn * sn + c * c) * p0); [ring|].
      rewrite H. ring. }
    replace (- 20 * ((c * p0 - sn * p1) * (c * p0 - sn * p1)
                     + (sn * p0 + c * p1) * (sn * p0 + c * p1)
                     - ((c * p0 - sn * p1) * c + (sn * p0 + c * p1) * sn)
                     + 0.25))
      with (- 20 * (p0 * p0 + p1 * p1 - (p0 * 1 + p1 * 0) + 0.25))
      by (rewrite <- Ee; reflexivity).
    generalize (exp (- 20 * (p0 * p0 + p1 * p1 - (p0 * 1 + p1 * 0) + 0.25))).
    intros E. apply vec_eq; cbn [c0 c1]; lra.
  - unfold u_xy, vdot. cbn [c0 c1]. ring.
Qed.

End ReportFacts.

(** ** More on the driver *)

Section DriverFacts.

Lemma mapM_raise {A B : Type} (f : A -> res B) (l1 l2 : list A) (a : A)
    (e : exn) :
  (forall a', In a' l1 -> exists b, f a' = Ok b) ->
  f a = Raise e ->
  mapM f (l1 ++ a :: l2) = Raise e.
Proof.
  induction l1 as [|a1 l1 IH]; intros Hok Ha.
  - cbn [app mapM]. rewrite Ha. reflexivity.
  - destruct (Hok a1 (or_introl eq_refl)) as (b & Hb).
    cbn [app mapM]. rewrite Hb. cbn [bind].
    rewrite IH; [reflexivity| |exact Ha].
    intros a' Ha'. apply Hok. now right.
Qed.

(** X21: the rate loop has no guard: at the first pair whose coarse
    error is zero (the fine one being non-zero) [math.log] is given 0
    and the loop dies of [ValueError]; no later rate is printed. *)
Theorem rate_loop_raises_on_zero_error (er dv : list R) (k m : nat) :
  (m < k)%nat ->
  (forall j, (j < m)%nat ->
     0 < nth j er 0 /\ 0 < nth (j + 1) er 0
     /\ 0 < nth j dv 0 /\ 0 < nth (j + 1) dv 0) ->
  nth m er 0 = 0 -> nth (m + 1) er 0 <> 0 ->
  mapM (rate_pair er dv) (seq 0 k) = Raise ValueError.
Proof.
  intros Hm Hpos H0 H1.
  replace k with (m + S (k - m - 1))%nat by lia.
  rewrite seq_app. cbn [seq]. apply mapM_raise.
  - intros j Hj. apply in_seq in Hj.
    destruct (Hpos j ltac:(lia)) as (A1 & A2 & A3 & A4).
    eexists. apply rate_pair_ok; assumption.
  - unfold rate_pair, np_div, math_log. cbn [Nat.add].
    destruct (Req_dec_T (nth (m + 1) er 0) 0) as [E|_]; [contradiction|].
    cbn [bind]. rewrite H0.
    destruct (Rlt_dec 0 (0 / nth (m + 1) er 0)) as [Hlt|_];
      [|reflexivity].
    unfold Rdiv in Hlt. rewrite Rmult_0_l in Hlt. lra.
Qed.

Lemma rate_loop_raises_on_zero_error_witness :
  (0 < 1)%nat
  /\ nth 0 [0; 1] 0 = 0
  /\ nth (0 + 1) [0; 1] 0 <> 0
  /\ mapM (rate_pair [0; 1] [1; 1]) (seq 0 1) = Raise ValueError.
Proof.
  assert (H1 : (0 < 1)%nat) by lia.
  assert (H2 : nth 0 [0; 1] 0 = 0) by reflexivity.
  assert (H3 : nth (0 + 1) [0; 1] 0 <> 0) by (cbn; lra).
  split; [exact H1|]. split; [exact H2|]. split; [exact H3|].
  apply (rate_loop_raises_on_zero_error [0; 1] [1; 1] 1 0 H1);
    [intros j Hj; lia|exact H2|exact H3].
Defined.

(** X22: the printed rate is the base-2 logarithm of the error ratio:
    when the error falls by the factor [2^p] from one resolution to the
    next, the rate is [p] (and likewise [q] for the divergence). *)
Theorem rate_of_power_of_two (er dv : list R) (m : nat) (p q : R) :
  0 < nth (m + 1) er 0 -> 0 < nth (m + 1) dv 0 ->
  nth m er 0 = Rpower 2 p * nth (m + 1) er 0 ->
  nth m dv 0 = Rpower 2 q * nth (m + 1) dv 0 ->
  rate_pair er dv m = Ok (p, q).
Proof.
  intros He Hd Ep Eq.
  assert (L2 : 0 < ln 2) by (rewrite <- ln_1; apply ln_increasing; lra).
  assert (P : forall r, 0 < Rpower 2 r) by (intros; apply exp_pos).
  assert (Q : forall r e', 0 < e' -> log2 (Rpower 2 r * e' / e') = r).
  { intros r e' H'. replace (Rpower 2 r * e' / e') with (Rpower 2 r)
      by (field; lra).
    unfold log2, Rpower. rewrite ln_exp. field. lra. }
  rewrite rate_pair_ok; try assumption.
  - rewrite Ep, Eq, !Q by assumption. reflexivity.
  - rewrite Ep. apply Rmult_lt_0_compat; [apply P|exact He].
  - rewrite Eq. apply Rmult_lt_0_compat; [apply P|exact Hd].
Qed.

Lemma rate_of_power_of_two_witness :
  0 < nth (0 + 1) [Rpower 2 2 * 1; 1] 0
  /\ rate_pair [Rpower 2 2 * 1; 1] [Rpower 2 1 * 3; 3] 0 = Ok (2, 1).
Proof.
  assert (H1 : 0 < nth (0 + 1) [Rpower 2 2 * 1; 1] 0) by (cbn; lra).
  assert (H2 : 0 < nth (0 + 1) [Rpower 2 1 * 3; 3] 0) by (cbn; lra).
  split; [exact H1|].
  apply (rate_of_power_of_two [Rpower 2 2 * 1; 1] [Rpower 2 1 * 3; 3]
           0 2 1 H1 H2); reflexivity.
Defined.

Context {lib : FEM}.

(** X20: there is no recovery in the sweep: if the runs before some
    resolution complete and the run at that resolution raises, the
    driver raises the same exception and prints no rate. *)
Theorem main_raises_first_failure (fuel : nat) (a : args)
    (l1 l2 : list Z) (np : Z) (e : exn) :
  N a = l1 ++ np :: l2 ->
  (forall n, In n l1 ->
     exists r, solve_induction fuel (deg a) n (save_interval a) = Ok r) ->
  solve_induction fuel (deg a) np (save_interval a) = Raise e ->
  main fuel a = Raise e.
Proof.
  intros HN Hok Hfail. unfold main. rewrite HN.
  rewrite (mapM_raise _ l1 l2 np e Hok Hfail). reflexivity.
Qed.

End DriverFacts.

Lemma main_raises_first_failure_witness :
  @main toy_fem 2 (mkArgs 1 [2%Z; 0%Z] None) = Raise MeshError.
Proof.
  apply (@main_raises_first_failure toy_fem 2
           (mkArgs 1 [2%Z; 0%Z] None) [2%Z] [] 0 MeshError).
  - reflexivity.
  - intros n [<-|[]].
    assert (H1 : (1 <= 2)%Z) by lia.
    assert (H2 : 1000000%Z <> 0%Z) by lia.
    assert (H3 : (steady_steps 2 <= 2)%nat) by (rewrite steady_steps_2; lia).
    destruct (@run_summary toy_fem 2 1 2 1000000 H1 H2 H3)
      as (d & e & st & _ & Hrun & _).
    exists (d, e, st). exact Hrun.
  - reflexivity.
Defined.

(** ** The Lagrange-multiplier demo *)

Module DemoFacts.

Import Demo.

Lemma select_length {A : Type} (l : list A) (binds : list nat)
    (r : list A) :
  select l binds = Some r -> length r = length binds.
Proof.
  revert r. induction binds as [|i bs IH]; intros r H; cbn in H.
  - injection H as <-. reflexivity.
  - destruct (nth_error l i); [|discriminate].
    destruct (select l bs) as [r'|]; [|discriminate].
    injection H as <-. cbn. f_equal. apply IH. reflexivity.
Qed.

Lemma select_nth {A : Type} (l : list A) (binds : list nat) (r : list A) :
  select l binds = Some r ->
  forall i bi, nth_error binds i = Some bi ->
  nth_error r i = nth_error l bi
  /\ exists a, nth_error l bi = Some a.
Proof.
  revert r. induction binds as [|b bs IH]; intros r H i bi Hi; cbn in H.
  - destruct i; discriminate.
  - destruct (nth_error l b) as [a|] eqn:Ea; [|discriminate].
    destruct (select l bs) as [r'|] eqn:Er; [|discriminate].
    injection H as <-. destruct i as [|i]; cbn in *.
    + injection Hi as <-. split; [symmetry; exact Ea|eauto].
    + apply (IH r' eq_refl i bi Hi).
Qed.

Lemma set_at_spec (v : list R) (i : nat) (a : R) (w : list R) :
  set_at v i a = Some w ->
  length w = length v
  /\ nth_error w i = Some a
  /\ forall j, j <> i -> nth_error w j = nth_error v j.
Proof.
  revert i w. induction v as [|b v IH]; intros i w H; [discriminate|].
  destruct i as [|i]; cbn in H.
  - injection H as <-. repeat split. intros [|j] Hj; [lia|reflexivity].
  - destruct (set_at v i a) as [w'|] eqn:E; [|discriminate].
    injection H as <-. destruct (IH i w' E) as (Hl & Hi & Ho).
    split; [cbn; f_equal; exact Hl|]. split; [exact Hi|].
    intros [|j] Hj; [reflexivity|]. cbn. apply Ho. lia.
Qed.

Lemma set_at_ok (v : list R) (i : nat) (a : R) :
  (i < length v)%nat -> exists w, set_at v i a = Some w.
Proof.
  revert i. induction v as [|b v IH]; intros i Hi; [cbn in Hi; lia|].
  destruct i as [|i]; cbn.
  - eauto.
  - destruct (IH i) as (w & Hw); [cbn in Hi; lia|]. rewrite Hw. eauto.
Qed.

Lemma scatter_spec (binds : list nat) :
  NoDup binds ->
  forall v x w,
    scatter v binds x = Some w ->
    length w = length v
    /\ select w binds = Some x
    /\ forall j, ~ In j binds -> nth_error w j = nth_error v j.
Proof.
  induction 1 as [|i bs Hni Hnd IH]; intros v x w H.
  - destruct x; [|discriminate]. injection H as <-. repeat split.
  - destruct x as [|a xs]; [discriminate|]. cbn in H.
    destruct (set_at v i a) as [v'|] eqn:Es; [|discriminate].
    destruct (set_at_spec v i a v' Es) as (Hl & Hi & Ho).
    destruct (IH v' xs w H) as (Hl' & Hsel & Hout).
    split; [congruence|]. split.
    + cbn. rewrite (Hout i Hni), Hi, Hsel. reflexivity.
    + intros j Hj. rewrite Hout by (intros Hin; apply Hj; now right).
      apply Ho. intros ->. apply Hj. now left.
Qed.

Lemma scatter_ok (binds : list nat) :
  forall v x,
    (forall i, In i binds -> (i < length v)%nat) ->
    length x = length binds ->
    exists w, scatter v binds x = Some w.
Proof.
  induction binds as [|i bs IH]; intros v x Hin Hlen.
  - destruct x; [|discriminate]. cbn. eauto.
  - destruct x as [|a xs]; [discriminate|]. cbn.
    destruct (set_at_ok v i a) as (v' & Hv'); [apply Hin; now left|].
    rewrite Hv'. destruct (set_at_spec v i a v' Hv') as (Hl & _).
    apply IH; [|cbn in Hlen; lia].
    intros j Hj. rewrite Hl. apply Hin. now right.
Qed.

Lemma zero_nth (v : list R) (j : nat) :
  (j < length v)%nat -> nth_error (zero v) j = Some 0.
Proof.
  intros Hj. unfold zero. rewrite nth_error_map.
  destruct (nth_error v j) eqn:E; [reflexivity|].
  apply nth_error_None in E. lia.
Qed.

Lemma cols_Forall2 (M : list (list R)) (binds : list nat)
    (M' : list (list R)) :
  cols M binds = Some M' ->
  Forall2 (fun row r => select row binds = Some r) M M'.
Proof.
  revert M'. induction M as [|row M IH]; intros M' H; cbn in H.
  - injection H as <-. constructor.
  - destruct (select row binds) as [r|] eqn:Er; [|discriminate].
    destruct (cols M binds) as [R'|]; [|discriminate].
    injection H as <-. constructor; [exact Er|apply IH; reflexivity].
Qed.

(** X23: writing values at distinct indices and reading those indices
    back returns the values; the vector keeps its length and its other
    entries. *)
Theorem scatter_select_round_trip (v : list R) (binds : list nat)
    (x w : list R) :
  NoDup binds ->
  scatter v binds x = Some w ->
  select w binds = Some x
  /\ length w = length v
  /\ forall j, ~ In j binds -> nth_error w j = nth_error v j.
Proof.
  intros Hnd H. destruct (scatter_spec binds Hnd v x w H) as (Hl & Hs & Ho).
  repeat split; assumption.
Qed.

Lemma scatter_select_round_trip_witness :
  NoDup [2%nat; 0%nat]
  /\ scatter [1; 1; 1] [2%nat; 0%nat] [5; 7] = Some [7; 1; 5]
  /\ select [7; 1; 5] [2%nat; 0%nat] = Some [5; 7].
Proof.
  assert (Hnd : NoDup [2%nat; 0%nat]).
  { constructor; [cbn; intros [H|[]]; discriminate|].
    constructor; [intros []|constructor]. }
  assert (Hs : scatter [1; 1; 1] [2%nat; 0%nat] [5; 7] = Some [7; 1; 5])
    by reflexivity.
  split; [exact Hnd|]. split; [exact Hs|].
  exact (proj1 (scatter_select_round_trip _ _ _ _ Hnd Hs)).
Defined.

Section Script.

Variable cg : list (list R) -> list R -> list R.

Hypothesis cg_length : forall M b, length (cg M b) = length b.

(** X24: the boundary values and the boundary stress are written on the
    boundary degrees of freedom only: the filled vector carries the
    solution of the reduced system at [binds], in order, and is zero at
    every other degree of freedom. *)
Theorem boundary_vectors_filled (M Mr : list (list R)) (b ubc rhs : list R)
    (binds : list nat) :
  NoDup binds ->
  (forall i, In i binds -> (i < length ubc)%nat) ->
  restrict M binds = Some Mr ->
  select b binds = Some rhs ->
  (exists w,
     project_bc cg M b ubc binds = Some w
     /\ select w binds = Some (cg Mr rhs)
     /\ length w = length ubc
     /\ forall j, (j < length ubc)%nat -> ~ In j binds ->
          nth_error w j = Some 0)
  /\ exists w,
       boundary_stress cg Mr b ubc binds = Some w
       /\ select w binds = Some (cg Mr rhs)
       /\ length w = length ubc
       /\ forall j, (j < length ubc)%nat -> ~ In j binds ->
            nth_error w j = Some 0.
Proof.
  intros Hnd Hin HM Hb.
  assert (Hz : length (zero ubc) = length ubc)
    by (unfold zero; apply length_map).
  assert (Hx : length (cg Mr rhs) = length binds).
  { rewrite cg_length. apply (select_length b binds rhs Hb). }
  destruct (scatter_ok binds (zero ubc) (cg Mr rhs)) as (w & Hw);
    [intros i Hi; rewrite Hz; apply Hin, Hi|exact Hx|].
  destruct (scatter_spec binds Hnd _ _ _ Hw) as (Hl & Hs & Ho).
  assert (Hfill : select w binds = Some (cg Mr rhs)
                  /\ length w = length ubc
                  /\ forall j, (j < length ubc)%nat -> ~ In j binds ->
                       nth_error w j = Some 0).
  { split; [exact Hs|]. split; [congruence|].
    intros j Hj Hnj. rewrite (Ho j Hnj). apply zero_nth, Hj. }
  split; exists w.
  - unfold project_bc. rewrite HM, Hb. split; [exact Hw|exact Hfill].
  - unfold boundary_stress. rewrite Hb. split; [exact Hw|exact Hfill].
Qed.

(** X25: the reduced matrix [M[binds,:][:,binds]] is square, of the
    size of [binds]; its entry [(i,j)] is the entry
    [(binds[i], binds[j])] of [M]; so it is symmetric when [M] is, as
    the conjugate-gradient solver needs. *)
Theorem restrict_entries (M Mr : list (list R)) (binds : list nat) :
  restrict M binds = Some Mr ->
  length Mr = length binds
  /\ (forall row, In row Mr -> length row = length binds)
  /\ (forall i j bi bj,
        nth_error binds i = Some bi -> nth_error binds j = Some bj ->
        entry Mr i j = entry M bi bj
        /\ exists a, entry M bi bj = Some a)
  /\ ((forall i j, entry M i j = entry M j i) ->
      forall i j, entry Mr i j = entry Mr j i).
Proof.
  unfold restrict, rows. intros H.
  destruct (select M binds) as [M1|] eqn:E1; [|discriminate].
  pose proof (cols_Forall2 M1 binds Mr H) as HF.
  pose proof (select_length M binds M1 E1) as L1.
  pose proof (Forall2_length HF) as L2.
  assert (Hent : forall i j bi bj,
             nth_error binds i = Some bi -> nth_error binds j = Some bj ->
             entry Mr i j = entry M bi bj
             /\ exists a, entry M bi bj = Some a).
  { intros i j bi bj Hi Hj. unfold entry.
    destruct (select_nth M binds M1 E1 i bi Hi) as (En & row & Erow).
    rewrite Erow in En |- *.
    destruct (Forall2_nth_error _ _ _ HF i row En) as (r & Er & Hsel).
    rewrite Er.
    destruct (select_nth row binds r Hsel j bj Hj) as (Ej & a & Ea).
    split; [exact Ej|]. exists a. exact Ea. }
  split; [lia|]. split; [|split; [exact Hent|]].
  - intros row Hrow. apply In_nth_error in Hrow as (i & Hi).
    assert (Hlt : (i < length M1)%nat).
    { rewrite L2. apply nth_error_Some. congruence. }
    destruct (nth_error M1 i) as [row1|] eqn:E;
      [|apply nth_error_None in E; lia].
    destruct (Forall2_nth_error _ _ _ HF i row1 E) as (r & Er & Hsel).
    rewrite Hi in Er. injection Er as <-.
    apply (select_length row1 binds row Hsel).
  - intros Hsym i j.
    destruct (nth_error binds i) as [bi|] eqn:Ei;
      destruct (nth_error binds j) as [bj|] eqn:Ej.
    + destruct (Hent i j bi bj Ei Ej) as (-> & _).
      destruct (Hent j i bj bi Ej Ei) as (-> & _). apply Hsym.
    + apply nth_error_None in Ej.
      assert (A : entry Mr i j = None).
      { unfold entry. destruct (nth_error Mr i) as [row|] eqn:Er;
          [|reflexivity].
        apply nth_error_None.
        assert (Hlen : length row = length binds).
        { apply nth_error_In in Er. revert row Er.
          intros row Er.
          apply In_nth_error in Er as (i' & Hi').
          destruct (nth_error M1 i') as [row1|] eqn:E;
            [|apply nth_error_None in E;
              assert (i' < length Mr)%nat
                by (apply nth_error_Some; congruence); lia].
          destruct (Forall2_nth_error _ _ _ HF i' row1 E)
            as (r & Er' & Hsel).
          rewrite Hi' in Er'. injection Er' as <-.
          apply (select_length row1 binds row Hsel). }
        lia. }
      assert (B : entry Mr j i = None).
      { unfold entry. destruct (nth_error Mr j) as [row|] eqn:Er;
          [|reflexivity].
        assert (j < length Mr)%nat by (apply nth_error_Some; congruence).
        lia. }
      congruence.
    + apply nth_error_None in Ei.
      assert (A : entry Mr i j = None).
      { unfold entry. destruct (nth_error Mr i) as [row|] eqn:Er;
          [|reflexivity].
        assert (i < length Mr)%nat by (apply nth_error_Some; congruence).
        lia. }
      assert (B : entry Mr j i = None).
      { unfold entry. destruct (nth_error Mr j) as [row|] eqn:Er;
          [|reflexivity].
        apply nth_error_None.
        assert (Hlen : length row = length binds).
        { apply nth_error_In in Er.
          apply In_nth_error in Er as (i' & Hi').
          destruct (nth_error M1 i') as [row1|] eqn:E;
            [|apply nth_error_None in E;
              assert (i' < length Mr)%nat
                by (apply nth_error_Some; congruence); lia].
          destruct (Forall2_nth_error _ _ _ HF i' row1 E)
            as (r & Er' & Hsel).
          rewrite Hi' in Er'. injection Er' as <-.
          apply (select_length row1 binds row Hsel). }
        lia. }
      congruence.
    + apply nth_error_None in Ei.
      assert (A : entry Mr i j = None).
      { unfold entry. destruct (nth_error Mr i) as [row|] eqn:Er;
          [|reflexivity].
        assert (i < length Mr)%nat by (apply nth_error_Some; congruence).
        lia. }
      assert (B : entry Mr j i = None).
      { apply nth_error_None in Ej.
        unfold entry. destruct (nth_error Mr j) as [row|] eqn:Er;
          [|reflexivity].
        assert (j < length Mr)%nat by (apply nth_error_Some; congruence).
        lia. }
      congruence.
Qed.

End Script.

Lemma boundary_vectors_filled_witness :
  let cg := fun (_ : list (list R)) (b : list R) => b in
  let M := [[1; 0; 2]; [0; 1; 0]; [2; 0; 1]] in
  exists w,
    project_bc cg M [5; 6; 7] [9; 9; 9] [2%nat; 0%nat] = Some w
    /\ select w [2%nat; 0%nat] = Some [7; 5]
    /\ nth_error w 1 = Some 0.
Proof.
  intros cg M.
  assert (Hnd : NoDup [2%nat; 0%nat]).
  { constructor; [cbn; intros [H|[]]; discriminate|].
    constructor; [intros []|constructor]. }
  assert (Hin : forall i, In i [2%nat; 0%nat] ->
                  (i < length [9; 9; 9])%nat).
  { intros i [<-|[<-|[]]]; cbn; lia. }
  destruct (boundary_vectors_filled cg (fun _ _ => eq_refl)
              M [[1; 2]; [2; 1]] [5; 6; 7] [9; 9; 9] [7; 5]
              [2%nat; 0%nat] Hnd Hin eq_refl eq_refl)
    as ((w & Hw & Hs & _ & Hz) & _).
  exists w. split; [exact Hw|]. split; [exact Hs|].
  apply Hz; [cbn; lia|]. intros [H|[H|[]]]; discriminate.
Defined.

Lemma restrict_entries_witness :
  restrict [[1; 0; 2]; [0; 1; 0]; [2; 0; 1]] [2%nat; 0%nat]
  = Some [[1; 2]; [2; 1]]
  /\ length [[1; 2]; [2; 1]] = length [2%nat; 0%nat].
Proof.
  assert (H : restrict [[1; 0; 2]; [0; 1; 0]; [2; 0; 1]] [2%nat; 0%nat]
              = Some [[1; 2]; [2; 1]]) by reflexivity.
  split; [exact H|].
  exact (proj1 (restrict_entries _ _ _ H)).
Defined.

End DemoFacts.

(** ** The run, whatever the comparison of the doubles answers *)

Section ClockFacts.

Context {lib : FEM}.

Lemma steady_loop_on_exact (mesh : Mesh) (X : Space) (dt : R) (itsave : Z)
    (fuel : nat) (st : state) :
  steady_loop_on exact_clock mesh X dt fuel itsave st
  = steady_loop mesh X dt fuel itsave st.
Proof.
  revert st. induction fuel as [|fuel IH]; intros st;
    cbn [steady_loop_on steady_loop]; unfold exact_clock;
    destruct (Rlt_dec (t st) T); try reflexivity.
  destruct (steady_step mesh X dt itsave st) as [st'| |]; cbn [bind];
    [apply IH|reflexivity|reflexivity].
Qed.

Lemma solve_induction_on_exact (fuel : nat) (degree np itsave : Z) :
  solve_induction_on exact_clock fuel degree np itsave
  = solve_induction fuel degree np itsave.
Proof.
  unfold solve_induction_on, solve_induction.
  destruct (np <=? 0)%Z; [reflexivity|].
  destruct (N_of np =? 0)%Z; [reflexivity|].
  cbv zeta. rewrite steady_loop_on_exact. reflexivity.
Qed.

Lemma PI_lt_7_2 : PI < 7 / 2.
Proof.
  destruct (PI_ineq 1) as [_ Hu].
  unfold sum_f_R0, tg_alt, PI_tg in Hu. simpl in Hu. lra.
Qed.

Lemma N_of_4 : N_of 4 = 6%Z.
Proof.
  rewrite N_of_floor by lia. apply Int_part_unique.
  unfold T. pose proof PI_gt_3. pose proof PI_lt_7_2. lra.
Qed.

Variables (degree np itsave : Z).

Hypothesis np_pos : (1 <= np)%Z.
Hypothesis itsave_nz : itsave <> 0%Z.

Lemma steady_after_clock (k : nat) :
  exists sk, steady_after degree np itsave k = Ok sk /\ g_t sk = t sk.
Proof.
  destruct k as [|k].
  - exists (steady_start degree np). split; [reflexivity|].
    change (dt_of np = 0.0 + dt_of np). lra.
  - destruct (steady_after_step degree np itsave itsave_nz k)
      as (sk & sk' & _ & Hsk' & _ & _ & _ & _ & Hg & Ht & _).
    exists sk'. split; [exact Hsk'|]. rewrite Hg, Ht. reflexivity.
Qed.

(** The loop makes passes up to the first state on which the comparison
    answers no, and returns that state. *)
Lemma steady_loop_on_stops (lt : state -> bool) :
  forall (m j : nat) (sj : state) (fuel : nat),
    steady_after degree np itsave j = Ok sj ->
    (m <= fuel)%nat ->
    (exists sk,
       steady_after degree np itsave (j + m) = Ok sk /\ lt sk = false) ->
    exists k sk,
      (j <= k <= j + m)%nat
      /\ steady_after degree np itsave k = Ok sk
      /\ lt sk = false
      /\ (forall i si, (j <= i < k)%nat ->
            steady_after degree np itsave i = Ok si -> lt si = true)
      /\ steady_loop_on lt (mesh_of np) (space_of degree np) (dt_of np)
                        fuel itsave sj = Ok sk.
Proof.
  induction m as [|m IH]; intros j sj fuel Hj Hfuel (sk & Hsk & Hlt).
  - rewrite Nat.add_0_r, Hj in Hsk. injection Hsk as <-.
    exists j, sj. split; [lia|]. split; [exact Hj|]. split; [exact Hlt|].
    split; [intros; lia|].
    destruct fuel; cbn [steady_loop_on]; rewrite Hlt; reflexivity.
  - destruct (lt sj) eqn:Elt.
    + destruct fuel as [|fuel]; [lia|].
      destruct (steady_after_step degree np itsave itsave_nz j)
        as (s & s' & Hs & Hs' & Hstep & _).
      rewrite Hj in Hs. injection Hs as <-.
      destruct (IH (S j) s' fuel Hs' ltac:(lia))
        as (k & sk' & Hk & Hsk' & Hlt' & Hall & Hloop).
      { exists sk. split; [|exact Hlt].
        replace (S j + m)%nat with (j + S m)%nat by lia. exact Hsk. }
      exists k, sk'. split; [lia|]. split; [exact Hsk'|].
      split; [exact Hlt'|]. split.
      * intros i si Hi Hsi. destruct (Nat.eq_dec i j) as [->|Hne].
        -- rewrite Hj in Hsi. injection Hsi as <-. exact Elt.
        -- apply (Hall i si); [lia|exact Hsi].
      * cbn [steady_loop_on]. rewrite Elt, Hstep. cbn [bind]. exact Hloop.
    + exists j, sj. split; [lia|]. split; [exact Hj|]. split; [exact Elt|].
      split; [intros; lia|].
      destruct fuel; cbn [steady_loop_on]; rewrite Elt; reflexivity.
Qed.

(** A run whose loop ends returns; it made some number [k] of passes,
    and everything counted in its trace is counted in [k]. *)
Lemma run_on_summary (lt : state -> bool) (fuel : nat) :
  clock_stops lt degree np itsave fuel ->
  exists k d e st st3,
    (k <= fuel)%nat
    /\ steady_after degree np itsave k = Ok st3
    /\ lt st3 = false
    /\ (forall j sj, (j < k)%nat ->
          steady_after degree np itsave j = Ok sj -> lt sj = true)
    /\ solve_induction_on lt fuel degree np itsave = Ok (d, e, st)
    /\ st = snd (finish (space_of degree np) st3)
    /\ (d, e) = fst (finish (space_of degree np) st3)
    /\ it st = (1 + Z.of_nat k)%Z
    /\ t st = IZR (it st) * dt_of np
    /\ g_t st = t st
    /\ count is_matrix_assembly (out st) = 1%nat
    /\ count is_solver_creation (out st) = 1%nat
    /\ count is_variational_solve (out st) = 1%nat
    /\ count is_vector_assembly (out st) = k
    /\ count is_substitution (out st) = k
    /\ count is_factorization (out st) = Nat.min k 1
    /\ exists extra,
         snapshots (out st) = initial_field degree np :: extra
         /\ length extra = saves itsave k.
Proof.
  intros (k0 & sk0 & Hk0 & Hsk0 & Hlt0).
  destruct (steady_loop_on_stops lt k0 0 (steady_start degree np) fuel
              eq_refl Hk0)
    as (k & st3 & Hk & Hst3 & Hlt & Hall & Hloop).
  { exists sk0. split; [exact Hsk0|exact Hlt0]. }
  destruct (steady_after_spec degree np itsave itsave_nz k)
    as (st3' & Hst3' & Hinv & Hm & Hc & Hv & Hl & Hsu & Hf & extra & Hsn
        & Hlen).
  rewrite Hst3 in Hst3'. injection Hst3' as <-.
  destruct (steady_after_clock k) as (st3' & Hst3' & Hg).
  rewrite Hst3 in Hst3'. injection Hst3' as <-.
  destruct (finish (space_of degree np) st3) as [[d e] st] eqn:Efin.
  exists k, d, e, st, st3. split; [lia|]. split; [exact Hst3|].
  split; [exact Hlt|].
  split; [intros j sj Hj; apply (Hall j sj); lia|]. split.
  { unfold solve_induction_on.
    destruct (Z.leb_spec np 0) as [Hle|_]; [lia|].
    pose proof (N_of_pos np np_pos) as HN.
    destruct (Z.eqb_spec (N_of np) 0) as [E|_]; [lia|].
    change (bind (steady_loop_on lt (mesh_of np) (space_of degree np)
                                 (dt_of np) fuel itsave
                                 (steady_start degree np))
                 (fun st => Ok (finish (space_of degree np) st))
            = Ok (d, e, st)).
    rewrite Hloop. cbn [bind]. rewrite Efin. reflexivity. }
  assert (Est : st = snd (finish (space_of degree np) st3))
    by (rewrite Efin; reflexivity).
  assert (Ee : (d, e) = fst (finish (space_of degree np) st3))
    by (rewrite Efin; reflexivity).
  split; [exact Est|]. split; [exact Ee|].
  rewrite Est, finish_state. unfold emit. cbn [it t g_t out].
  rewrite !count_app, snapshots_app, Hm, Hc, Hv, Hl, Hsu, Hf, Hsn.
  destruct Hinv as (Hit & Ht & _).
  repeat split; cbn; try lia; try assumption.
  exists extra. rewrite app_nil_r. split; [reflexivity|exact Hlen].
Qed.

(** The doubles of the script stop the loop at the start of pass [k]
    when [t < T] fails on the sum of [1 + k] additions. *)
Lemma double_clock_stops (k fuel : nat) :
  (k <= fuel)%nat ->
  DoubleClock.guard np (1 + Z.of_nat k) = false ->
  clock_stops (double_clock np) degree np itsave fuel.
Proof.
  intros Hk Hg.
  destruct (steady_after_spec degree np itsave itsave_nz k)
    as (sk & Hsk & (Hit & _) & _).
  exists k, sk. split; [exact Hk|]. split; [exact Hsk|].
  unfold double_clock. rewrite Hit. exact Hg.
Qed.

Lemma double_clock_at (k : nat) (sk : state) :
  steady_after degree np itsave k = Ok sk ->
  double_clock np sk = DoubleClock.guard np (1 + Z.of_nat k).
Proof.
  intros Hsk.
  destruct (steady_after_spec degree np itsave itsave_nz k)
    as (sk' & Hsk' & (Hit & _) & _).
  rewrite Hsk in Hsk'. injection Hsk' as <-.
  unfold double_clock. rewrite Hit. reflexivity.
Qed.

(** Over the reals the loop stops after [steady_steps np] passes. *)
Lemma exact_clock_stops (fuel : nat) :
  (steady_steps np <= fuel)%nat ->
  clock_stops exact_clock degree np itsave fuel.
Proof.
  intros Hfuel.
  destruct (steady_after_spec degree np itsave itsave_nz (steady_steps np))
    as (sk & Hsk & (Hit & Ht & _) & _).
  exists (steady_steps np), sk. split; [exact Hfuel|]. split; [exact Hsk|].
  assert (E : t sk = T).
  { rewrite Ht, Hit, <- (steps_span_T np np_pos). f_equal. f_equal.
    pose proof (steps_total np np_pos). lia. }
  unfold exact_clock. destruct (Rlt_dec (t sk) T); [lra|reflexivity].
Qed.

End ClockFacts.

Section ClockClaims.

Context {lib : FEM}.

(** C2: from the first pass on, every step solves the BDF2 system
    [inner(B - 4/3 B1 + 1/3 B0, v) + (2/3) dt BForm(B,v,u,g,n,h) = 0];
    its bilinear part does not depend on the history or on the time of
    the boundary data, is assembled into one matrix, given to one solver
    that keeps its factors: they are computed by the first pass and used
    by every pass, one substitution each, however many passes the
    comparison [t < T] lets the loop make. *)
Theorem bdf2_system_factorized_once (lt : state -> bool) (fuel : nat)
    (degree np itsave : Z) :
  (1 <= np)%Z -> itsave <> 0%Z -> clock_stops lt degree np itsave fuel ->
  let mesh := mesh_of np in
  let X := space_of degree np in
  let dt := dt_of np in
  (forall b0 b1 gt x B v,
     system_form degree np x B v = lhs (F_bdf2 mesh dt b0 b1 gt) x B v)
  /\ (forall b0 b1 gt x B v,
        F_bdf2 mesh dt b0 b1 gt x B v = bdf2_residual mesh dt b0 b1 gt x B v)
  /\ (exists k d e st st3,
        solve_induction_on lt fuel degree np itsave = Ok (d, e, st)
        /\ steady_after degree np itsave k = Ok st3
        /\ st = snd (finish X st3)
        /\ it st = (1 + Z.of_nat k)%Z
        /\ count is_matrix_assembly (out st) = 1%nat
        /\ count is_solver_creation (out st) = 1%nat
        /\ count is_substitution (out st) = k
        /\ count is_factorization (out st) = Nat.min k 1
        /\ ((2 <= it st)%Z -> count is_factorization (out st) = 1%nat))
  /\ forall k : nat,
       exists sk sk' s',
         steady_after degree np itsave k = Ok sk
         /\ steady_after degree np itsave (S k) = Ok sk'
         /\ B2 sk' = lu (system_matrix degree np)
                        (assemble_vector X (pass_rhs degree np sk))
         /\ solver sk' = Some s'
         /\ lu_matrix s' = system_matrix degree np
         /\ reuse_factorization s' = true
         /\ factorized s' = true
         /\ count is_factorization (out sk') = 1%nat
         /\ forall x B v,
              system_form degree np x B v = pass_rhs degree np sk x v
              <-> bdf2_residual mesh dt (B0 sk) (B1 sk) (t sk + dt) x B v
                  = fzero.
Proof.
  intros Hnp Hs Hstop mesh X dt.
  assert (Hform : forall b0 b1 gt x B v,
             system_form degree np x B v
             = lhs (F_bdf2 mesh dt b0 b1 gt) x B v).
  { intros. unfold system_form, a_bdf2. apply lhs_bdf2_invariant. }
  split; [exact Hform|].
  split; [intros; apply F_bdf2_is_residual|]. split.
  - destruct (run_on_summary degree np itsave Hnp Hs lt fuel Hstop)
      as (k & d & e & st & st3 & _ & Hst3 & _ & _ & Hrun & Est & _ & Hit
          & _ & _ & Hm & Hc & _ & _ & Hsu & Hf & _).
    exists k, d, e, st, st3. repeat split; try assumption.
    intros H2. rewrite Hf. lia.
  - intros k.
    destruct (steady_after_step degree np itsave Hs k)
      as (sk & sk' & Hsk & Hsk' & _ & HB2 & _).
    destruct (steady_after_spec degree np itsave Hs (S k))
      as (sk2 & Hsk2 & Hinv & _ & _ & _ & _ & _ & Hf & _).
    rewrite Hsk' in Hsk2. injection Hsk2 as <-.
    destruct Hinv as (_ & _ & s' & Hsol & HA & Hre & Hfa).
    exists sk, sk', s'. repeat split; try assumption.
    + rewrite Hf. lia.
    + rewrite (Hform (B0 sk) (B1 sk) (t sk + dt)).
      apply (bdf2_system_is_residual mesh dt).
    + rewrite (Hform (B0 sk) (B1 sk) (t sk + dt)).
      apply (bdf2_system_is_residual mesh dt).
Qed.

(** C4: in a run, the matrix is assembled once, before the loop, and
    never in it; a pass assembles one right-hand side and nothing else,
    so a run of [k] passes has 1 matrix assembly and [k] right-hand
    sides, [k = it - 1], whatever the comparison [t < T] answers, and
    the factors were computed at most once. *)
Theorem matrix_assembled_once (lt : state -> bool) (fuel : nat)
    (degree np itsave : Z) :
  (1 <= np)%Z -> itsave <> 0%Z -> clock_stops lt degree np itsave fuel ->
  (exists k d e st st3,
     solve_induction_on lt fuel degree np itsave = Ok (d, e, st)
     /\ steady_after degree np itsave k = Ok st3
     /\ st = snd (finish (space_of degree np) st3)
     /\ it st = (1 + Z.of_nat k)%Z
     /\ count is_matrix_assembly (out st) = 1%nat
     /\ count is_vector_assembly (out st) = k
     /\ count is_solver_creation (out st) = 1%nat
     /\ (count is_factorization (out st) <= 1)%nat)
  /\ count is_matrix_assembly (out (steady_start degree np)) = 1%nat
  /\ forall k : nat,
       exists sk,
         steady_after degree np itsave k = Ok sk
         /\ count is_matrix_assembly (out sk) = 1%nat
         /\ count is_vector_assembly (out sk) = k
         /\ count is_factorization (out sk) = Nat.min k 1.
Proof.
  intros Hnp Hs Hstop. split; [|split].
  - destruct (run_on_summary degree np itsave Hnp Hs lt fuel Hstop)
      as (k & d & e & st & st3 & _ & Hst3 & _ & _ & Hrun & Est & _ & Hit
          & _ & _ & Hm & Hc & _ & Hl & _ & Hf & _).
    exists k, d, e, st, st3. repeat split; try assumption.
    rewrite Hf. lia.
  - reflexivity.
  - intros k.
    destruct (steady_after_spec degree np itsave Hs k)
      as (sk & Hsk & _ & Hm & _ & _ & Hl & _ & Hf & _).
    exists sk. repeat split; assumption.
Qed.

(** C6, as the script runs it on four cells per side: [N = int(2 pi)]
    is 6 and five passes would reach [T]; the double accumulated by six
    additions of [dt] is still under [T], so the loop guarded by
    [t < T] makes a sixth pass and ends with [it = 7 = N + 1], one step
    past [T]. *)
Theorem double_clock_overshoots (fuel : nat) (degree itsave : Z) :
  itsave <> 0%Z -> (6 <= fuel)%nat ->
  N_of 4 = 6%Z
  /\ steady_steps 4 = 5%nat
  /\ DoubleClock.N_d 4 = Some 6%Z
  /\ DoubleClock.guard 4 6 = true
  /\ DoubleClock.guard 4 7 = false
  /\ exists d e st,
       solve_induction_on (double_clock 4) fuel degree 4 itsave
       = Ok (d, e, st)
       /\ count is_vector_assembly (out st) = 6%nat
       /\ it st = 7%Z
       /\ it st = (N_of 4 + 1)%Z
       /\ T < t st.
Proof.
  intros Hs Hfuel.
  assert (Hnp : (1 <= 4)%Z) by lia.
  split; [exact N_of_4|].
  split; [unfold steady_steps; rewrite N_of_4; reflexivity|].
  split; [vm_compute; reflexivity|].
  split; [vm_compute; reflexivity|].
  split; [vm_compute; reflexivity|].
  assert (Hstop : clock_stops (double_clock 4) degree 4 itsave fuel).
  { apply (double_clock_stops degree 4 itsave Hs 6 fuel Hfuel).
    vm_compute. reflexivity. }
  destruct (run_on_summary degree 4 itsave Hnp Hs (double_clock 4) fuel Hstop)
    as (k & d & e & st & st3 & _ & Hst3 & Hlt & Hall & Hrun & _ & _ & Hit
        & Ht & _ & _ & _ & _ & Hl & _).
  assert (Ek : k = 6%nat).
  { rewrite (double_clock_at degree 4 itsave Hs k st3 Hst3) in Hlt.
    destruct (Nat.lt_trichotomy k 6) as [Hk|[Hk|Hk]]; [|exact Hk|].
    - destruct k as [|[|[|[|[|[|k]]]]]]; try lia;
        vm_compute in Hlt; discriminate Hlt.
    - destruct (steady_after_spec degree 4 itsave Hs 6)
        as (s6 & Hs6 & _).
      pose proof (Hall 6%nat s6 Hk Hs6) as H6.
      rewrite (double_clock_at degree 4 itsave Hs 6 s6 Hs6) in H6.
      vm_compute in H6. discriminate H6. }
  rewrite Ek in Hl, Hit. exists d, e, st.
  split; [exact Hrun|]. split; [exact Hl|].
  split; [rewrite Hit; reflexivity|].
  split; [rewrite Hit, N_of_4; reflexivity|].
  rewrite Ht, Hit. pose proof (steps_span_T 4 Hnp) as HT.
  rewrite N_of_4 in HT. rewrite <- HT.
  pose proof (dt_of_pos 4 Hnp). cbn. lra.
Qed.

(** C8, as the script has it: with [s = 1] the solution file gets the
    initial condition and one snapshot per pass of the loop; the first
    step writes nothing, so the file holds as many snapshots as steps
    were taken, [it], not one more. *)
Theorem snapshot_count_is_step_count (lt : state -> bool) (fuel : nat)
    (degree np : Z) :
  (1 <= np)%Z -> clock_stops lt degree np 1 fuel ->
  snapshots (out (after_bootstrap degree np)) = [initial_field degree np]
  /\ it (after_bootstrap degree np) = 1%Z
  /\ (forall k : nat,
        exists sk,
          steady_after degree np 1 k = Ok sk
          /\ it sk = (1 + Z.of_nat k)%Z
          /\ length (snapshots (out sk)) = S k)
  /\ exists k d e st,
       solve_induction_on lt fuel degree np 1 = Ok (d, e, st)
       /\ count is_vector_assembly (out st) = k
       /\ hd_error (snapshots (out st)) = Some (initial_field degree np)
       /\ length (snapshots (out st)) = S k
       /\ Z.of_nat (length (snapshots (out st))) = it st.
Proof.
  intros Hnp Hstop.
  assert (Hs : 1%Z <> 0%Z) by lia.
  split; [reflexivity|]. split; [reflexivity|]. split.
  - intros k.
    destruct (steady_after_spec degree np 1 Hs k)
      as (sk & Hsk & (Hit & _) & _ & _ & _ & _ & _ & _ & extra & Hsn & Hlen).
    exists sk. split; [exact Hsk|]. split; [exact Hit|].
    rewrite Hsn. cbn [length]. rewrite Hlen, saves_all. reflexivity.
  - destruct (run_on_summary degree np 1 Hnp Hs lt fuel Hstop)
      as (k & d & e & st & st3 & _ & _ & _ & _ & Hrun & _ & _ & Hit
          & _ & _ & _ & _ & _ & Hl & _ & _ & extra & Hsn & Hlen).
    exists k, d, e, st. split; [exact Hrun|]. split; [exact Hl|].
    rewrite Hsn. cbn [hd_error length]. rewrite Hlen, saves_all, Hit.
    repeat split. lia.
Qed.

(** X11: the time of the boundary data is the time of the step being
    solved: at the start, after the first step, after every pass and at
    the end of the run, [g.t = t]. *)
Theorem boundary_time_follows_clock (lt : state -> bool) (fuel : nat)
    (degree np itsave : Z) :
  (1 <= np)%Z -> itsave <> 0%Z -> clock_stops lt degree np itsave fuel ->
  g_t (init (space_of degree np)) = t (init (space_of degree np))
  /\ g_t (after_bootstrap degree np) = t (after_bootstrap degree np)
  /\ (forall k : nat,
        exists sk,
          steady_after degree np itsave k = Ok sk /\ g_t sk = t sk)
  /\ exists d e st,
       solve_induction_on lt fuel degree np itsave = Ok (d, e, st)
       /\ g_t st = t st.
Proof.
  intros Hnp Hs Hstop.
  split; [reflexivity|].
  split; [change (dt_of np = 0.0 + dt_of np); lra|].
  split; [exact (steady_after_clock degree np itsave Hs)|].
  destruct (run_on_summary degree np itsave Hnp Hs lt fuel Hstop)
    as (k & d & e & st & st3 & _ & _ & _ & _ & Hrun & _ & _ & _ & _ & Hg
        & _).
  exists d, e, st. split; [exact Hrun|exact Hg].
Qed.

(** X14: for a save interval [s >= 1] a run that took [it] steps
    leaves [1 + it/s - 1/s] snapshots in the solution file (integer
    quotients): the initial condition and the steps [2 .. it] that are
    multiples of [s]; for [s >= 2] that is [1 + it/s]. *)
Theorem snapshot_count_general (lt : state -> bool) (fuel : nat)
    (degree np s : Z) :
  (1 <= np)%Z -> (1 <= s)%Z -> clock_stops lt degree np s fuel ->
  exists d e st,
    solve_induction_on lt fuel degree np s = Ok (d, e, st)
    /\ Z.of_nat (length (snapshots (out st)))
       = (1 + it st / s - 1 / s)%Z
    /\ ((2 <= s)%Z ->
        Z.of_nat (length (snapshots (out st))) = (1 + it st / s)%Z).
Proof.
  intros Hnp Hs Hstop.
  assert (Hs0 : s <> 0%Z) by lia.
  destruct (run_on_summary degree np s Hnp Hs0 lt fuel Hstop)
    as (k & d & e & st & st3 & _ & _ & _ & _ & Hrun & _ & _ & Hit
        & _ & _ & _ & _ & _ & _ & _ & _ & extra & Hsn & Hlen).
  exists d, e, st. split; [exact Hrun|].
  assert (E : Z.of_nat (length (snapshots (out st)))
              = (1 + it st / s - 1 / s)%Z).
  { rewrite Hsn. cbn [length]. rewrite Nat2Z.inj_succ, Hlen.
    rewrite (saves_closed s k Hs), Hit. lia. }
  split; [exact E|].
  intros H2. rewrite E. rewrite (Z.div_small 1 s) by lia. lia.
Qed.

(** X17: the errors a run returns are those of the last [B2] against
    the exact solution at the time [t] the loop ended with; the
    divergence norm is a square root, hence not negative;
    the error file is the last thing written; and as soon as the loop
    has made a pass the field measured is the one just shifted into
    [B1]. *)
Theorem errors_measured_at_final_time (lt : state -> bool) (fuel : nat)
    (degree np itsave : Z) :
  (1 <= np)%Z -> itsave <> 0%Z -> clock_stops lt degree np itsave fuel ->
  exists d e st,
    solve_induction_on lt fuel degree np itsave = Ok (d, e, st)
    /\ e = errornorm (ge (t st)) (B2 st)
    /\ d = sqrt (assemble_scalar (space_of degree np)
                   (fun x => dx (div (local (B2 st) x)
                                 * div (local (B2 st) x))))
    /\ 0 <= d
    /\ (exists pre,
          out st
          = pre ++ [EvAssembleScalar;
                    EvWrite Berr_pvd
                      (fn_sub (B2 st)
                              (interpolate (ge (t st))
                                           (space_of degree np)))])
    /\ ((2 <= it st)%Z -> B2 st = B1 st).
Proof.
  intros Hnp Hs Hstop.
  destruct (run_on_summary degree np itsave Hnp Hs lt fuel Hstop)
    as (k & d & e & st & st3 & _ & Hst3 & _ & _ & Hrun & Est & Ede & Hit
        & Ht & _).
  assert (Et : t st = t st3) by (rewrite Est, finish_state; reflexivity).
  assert (EB : B2 st = B2 st3) by (rewrite Est, finish_state; reflexivity).
  assert (EB1 : B1 st = B1 st3) by (rewrite Est, finish_state; reflexivity).
  unfold finish in Ede. cbn [fst] in Ede. injection Ede as Ed Ee.
  exists d, e, st. split; [exact Hrun|].
  rewrite EB, EB1, Et. split; [exact Ee|].
  split; [exact Ed|]. split; [rewrite Ed; apply sqrt_pos|]. split.
  - exists (out st3). rewrite Est, finish_state. reflexivity.
  - intros H2. destruct k as [|k]; [lia|].
    destruct (steady_after_step degree np itsave Hs k)
      as (sk & sk' & _ & Hsk' & _ & _ & HB1 & _).
    rewrite Hst3 in Hsk'. injection Hsk' as <-. symmetry. exact HB1.
Qed.

End ClockClaims.

(** The theorems above on the one-point library, four cells per side,
    with the clock of the script: the sixth pass is the last. *)
Section ClockInstances.

Lemma bdf2_system_factorized_once_witness :
  (1 <= 4)%Z /\ 1%Z <> 0%Z
  /\ @clock_stops toy_fem (double_clock 4) 1 4 1 6
  /\ exists k d e st st3,
       @solve_induction_on toy_fem (double_clock 4) 6 1 4 1 = Ok (d, e, st)
       /\ @steady_after toy_fem 1 4 1 k = Ok st3
       /\ count is_matrix_assembly (out st) = 1%nat
       /\ count is_substitution (out st) = k
       /\ count is_factorization (out st) = Nat.min k 1.
Proof.
  assert (H1 : (1 <= 4)%Z) by lia.
  assert (H2 : 1%Z <> 0%Z) by lia.
  assert (H3 : @clock_stops toy_fem (double_clock 4) 1 4 1 6).
  { apply (double_clock_stops 1 4 1 H2 6 6); [lia|].
    vm_compute. reflexivity. }
  split; [exact H1|]. split; [exact H2|]. split; [exact H3|].
  destruct (@bdf2_system_factorized_once toy_fem (double_clock 4) 6 1 4 1
              H1 H2 H3)
    as (_ & _ & (k & d & e & st & st3 & Hrun & Hst3 & _ & _ & Hm & _ & Hsu
                 & Hf & _) & _).
  exists k, d, e, st, st3. repeat split; assumption.
Defined.

Lemma matrix_assembled_once_witness :
  (1 <= 4)%Z /\ 1%Z <> 0%Z
  /\ @clock_stops toy_fem (double_clock 4) 1 4 1 6
  /\ exists k d e st st3,
       @solve_induction_on toy_fem (double_clock 4) 6 1 4 1 = Ok (d, e, st)
       /\ @steady_after toy_fem 1 4 1 k = Ok st3
       /\ it st = (1 + Z.of_nat k)%Z
       /\ count is_matrix_assembly (out st) = 1%nat
       /\ count is_vector_assembly (out st) = k.
Proof.
  assert (H1 : (1 <= 4)%Z) by lia.
  assert (H2 : 1%Z <> 0%Z) by lia.
  assert (H3 : @clock_stops toy_fem (double_clock 4) 1 4 1 6).
  { apply (double_clock_stops 1 4 1 H2 6 6); [lia|].
    vm_compute. reflexivity. }
  split; [exact H1|]. split; [exact H2|]. split; [exact H3|].
  destruct (@matrix_assembled_once toy_fem (double_clock 4) 6 1 4 1
              H1 H2 H3)
    as ((k & d & e & st & st3 & Hrun & Hst3 & _ & Hit & Hm & Hl & _) & _).
  exists k, d, e, st, st3. repeat split; assumption.
Defined.

Lemma double_clock_overshoots_witness :
  1%Z <> 0%Z /\ (6 <= 6)%nat
  /\ exists d e st,
       @solve_induction_on toy_fem (double_clock 4) 6 1 4 1 = Ok (d, e, st)
       /\ count is_vector_assembly (out st) = 6%nat
       /\ it st = 7%Z
       /\ T < t st.
Proof.
  assert (H2 : 1%Z <> 0%Z) by lia.
  assert (H3 : (6 <= 6)%nat) by lia.
  split; [exact H2|]. split; [exact H3|].
  destruct (@double_clock_overshoots toy_fem 6 1 1 H2 H3)
    as (_ & _ & _ & _ & _ & d & e & st & Hrun & Hl & Hit & _ & Ht).
  exists d, e, st. repeat split; assumption.
Defined.

Lemma snapshot_count_is_step_count_witness :
  (1 <= 4)%Z /\ @clock_stops toy_fem (double_clock 4) 1 4 1 6
  /\ exists k d e st,
       @solve_induction_on toy_fem (double_clock 4) 6 1 4 1 = Ok (d, e, st)
       /\ length (snapshots (out st)) = S k
       /\ Z.of_nat (length (snapshots (out st))) = it st.
Proof.
  assert (H1 : (1 <= 4)%Z) by lia.
  assert (H2 : 1%Z <> 0%Z) by lia.
  assert (H3 : @clock_stops toy_fem (double_clock 4) 1 4 1 6).
  { apply (double_clock_stops 1 4 1 H2 6 6); [lia|].
    vm_compute. reflexivity. }
  split; [exact H1|]. split; [exact H3|].
  destruct (@snapshot_count_is_step_count toy_fem (double_clock 4) 6 1 4
              H1 H3)
    as (_ & _ & _ & k & d & e & st & Hrun & _ & _ & Hlen & Hit).
  exists k, d, e, st. repeat split; assumption.
Defined.

Lemma boundary_time_follows_clock_witness :
  (1 <= 4)%Z /\ 1%Z <> 0%Z
  /\ @clock_stops toy_fem (double_clock 4) 1 4 1 6
  /\ exists d e st,
       @solve_induction_on toy_fem (double_clock 4) 6 1 4 1 = Ok (d, e, st)
       /\ g_t st = t st.
Proof.
  assert (H1 : (1 <= 4)%Z) by lia.
  assert (H2 : 1%Z <> 0%Z) by lia.
  assert (H3 : @clock_stops toy_fem (double_clock 4) 1 4 1 6).
  { apply (double_clock_stops 1 4 1 H2 6 6); [lia|].
    vm_compute. reflexivity. }
  split; [exact H1|]. split; [exact H2|]. split; [exact H3|].
  destruct (@boundary_time_follows_clock toy_fem (double_clock 4) 6 1 4 1
              H1 H2 H3)
    as (_ & _ & _ & d & e & st & Hrun & Hg).
  exists d, e, st. split; [exact Hrun|exact Hg].
Defined.

Lemma snapshot_count_general_witness :
  (1 <= 4)%Z /\ (1 <= 2)%Z
  /\ @clock_stops toy_fem (double_clock 4) 1 4 2 6
  /\ exists d e st,
       @solve_induction_on toy_fem (double_clock 4) 6 1 4 2 = Ok (d, e, st)
       /\ Z.of_nat (length (snapshots (out st))) = (1 + it st / 2)%Z.
Proof.
  assert (H1 : (1 <= 4)%Z) by lia.
  assert (H2 : (1 <= 2)%Z) by lia.
  assert (H2' : 2%Z <> 0%Z) by lia.
  assert (H3 : @clock_stops toy_fem (double_clock 4) 1 4 2 6).
  { apply (double_clock_stops 1 4 2 H2' 6 6); [lia|].
    vm_compute. reflexivity. }
  split; [exact H1|]. split; [exact H2|]. split; [exact H3|].
  destruct (@snapshot_count_general toy_fem (double_clock 4) 6 1 4 2
              H1 H2 H3)
    as (d & e & st & Hrun & _ & Hlen).
  exists d, e, st. split; [exact Hrun|]. apply Hlen. lia.
Defined.

Lemma errors_measured_at_final_time_witness :
  (1 <= 4)%Z /\ 1%Z <> 0%Z
  /\ @clock_stops toy_fem (double_clock 4) 1 4 1 6
  /\ exists d e st,
       @solve_induction_on toy_fem (double_clock 4) 6 1 4 1 = Ok (d, e, st)
       /\ e = @errornorm toy_fem (ge (t st)) (B2 st)
       /\ 0 <= d.
Proof.
  assert (H1 : (1 <= 4)%Z) by lia.
  assert (H2 : 1%Z <> 0%Z) by lia.
  assert (H3 : @clock_stops toy_fem (double_clock 4) 1 4 1 6).
  { apply (double_clock_stops 1 4 1 H2 6 6); [lia|].
    vm_compute. reflexivity. }
  split; [exact H1|]. split; [exact H2|]. split; [exact H3|].
  destruct (@errors_measured_at_final_time toy_fem (double_clock 4) 6 1 4 1
              H1 H2 H3)
    as (d & e & st & Hrun & He & _ & Hd & _).
  exists d, e, st. split; [exact Hrun|]. split; [exact He|exact Hd].
Defined.

End ClockInstances.
